(** * Screenshot comparator: a shallow embedding of
      [visual/utils/screenshot_compare.py]

    The class [ScreenshotCompare] is embedded as functions over an explicit
    file system.  Pillow and pathlib, which the class calls, are modelled by
    the small set of operations below.

    Conventions of the model:
    - a decoded picture is its size together with a pixel function
      [x y |-> pixel]; only the pixels inside the bounding box are observed;
    - a file system is a finite map from path strings to nodes, one string
      per file; PNG is lossless, so a stored PNG file is represented by the
      decoded picture itself; the other formats Pillow can write are not
      modelled;
    - parent directories are not tracked by [Image_save]: the two
      directories [__init__] creates are taken to exist, and the statements
      that write elsewhere ask for the directory ([parent_ready]);
    - paths follow pathlib on POSIX: [joinpath dir name] is
      [str(Path(dir) / name)];
    - a Python float is identified with the rational it denotes:
      [int / int] is the quotient rounded to the nearest binary64 value
      (ties to even), comparisons are exact, and [ZeroDivisionError] is
      raised on a zero divisor. *)

From Stdlib Require Import ZArith QArith Qround Qpower Lia Ascii.
From Stdlib Require DecimalString.
From stdpp Require Import base option list list_numbers strings gmap.

Open Scope string_scope.
Open Scope Z_scope.

(** ** Python exceptions and the state-and-exception monad *)

Inductive exn :=
  | FileNotFoundError
  | IsADirectoryError
  | UnidentifiedImageError
  | SystemError
  | ValueError
  | ZeroDivisionError
  | DecompressionBombError
  (* not a Python exception: the extension is not that of a PNG file, and
     what Pillow does then (another encoder, or [ValueError] for an
     extension it does not know) is not modelled *)
  | UnmodelledFormat.

Inductive outcome (A : Type) :=
  | Return (a : A)
  | Raise (e : exn).
Arguments Return {A} a.
Arguments Raise {A} e.

(** ** Pictures *)

Definition rgb : Type := Z * Z * Z.

(** A picture in mode ["RGB"]. *)
Record RGBImage := mkRGB { size : Z * Z; getpixel : Z -> Z -> rgb }.

(** What [Image.open] yields: a picture in one of the modes a PNG file
    stores with 8 bits per channel. *)
Inductive Image :=
  | ModeL (sz : Z * Z) (px : Z -> Z -> Z)
  | ModeRGB (img : RGBImage)
  | ModeRGBA (sz : Z * Z) (px : Z -> Z -> rgb * Z).

Definition Image_size (img : Image) : Z * Z :=
  match img with
  | ModeL sz _ => sz
  | ModeRGB i => size i
  | ModeRGBA sz _ => sz
  end.

(** [img.convert("RGB")]: grey levels are replicated, alpha is dropped. *)
Definition convert_RGB (img : Image) : RGBImage :=
  match img with
  | ModeL sz px => mkRGB sz (fun x y => (px x y, px x y, px x y))
  | ModeRGB i => i
  | ModeRGBA sz px => mkRGB sz (fun x y => fst (px x y))
  end.

(** ** The file system *)

Inductive node :=
  | ImageFile (img : Image)
  | OtherFile
  | Directory.

Abbreviation filesystem := (gmap string node).

Definition M (A : Type) : Type := filesystem -> outcome A * filesystem.

Definition ret {A} (a : A) : M A := fun fs => (Return a, fs).
Definition raise {A} (e : exn) : M A := fun fs => (Raise e, fs).
Definition bind {A B} (m : M A) (k : A -> M B) : M B :=
  fun fs =>
    match m fs with
    | (Return a, fs') => k a fs'
    | (Raise e, fs') => (Raise e, fs')
    end.

Declare Scope py_scope.
Delimit Scope py_scope with py.
Notation "x <- m ;; k" := (bind m (fun x => k))
  (at level 100, m at next level, right associativity) : py_scope.
Notation "m ;;; k" := (bind m (fun _ => k))
  (at level 100, right associativity) : py_scope.
Open Scope py_scope.

(** ** pathlib *)

(** [s.split("/")]. *)
Fixpoint split_slash (s : string) : list string :=
  match s with
  | EmptyString => [""]
  | String c rest =>
      if Ascii.eqb c "/" then "" :: split_slash rest
      else match split_slash rest with
           | [] => [String c ""]
           | x :: xs => String c x :: xs
           end
  end.

(** [s.lstrip("/")]. *)
Fixpoint lstrip_slash (s : string) : string :=
  match s with
  | EmptyString => ""
  | String c rest => if Ascii.eqb c "/" then lstrip_slash rest else s
  end.

(** The root of a POSIX path and what follows it: exactly two leading
    slashes are kept as a root of their own, any other number of them is
    the root ["/"]. *)
Definition splitroot (part : string) : string * string :=
  let stripped := lstrip_slash part in
  match (String.length part - String.length stripped)%nat with
  | O => ("", part)
  | 2%nat => ("//", stripped)
  | _ => ("/", stripped)
  end.

(** The components pathlib keeps: neither empty nor ["."]. *)
Definition plain_part (x : string) : bool :=
  negb (String.eqb x "") && negb (String.eqb x ".").

(** A parsed path: its root and its components. *)
Record PurePath := mkPath { path_root : string; path_parts : list string }.

(** [Path(s)]. *)
Definition Path (s : string) : PurePath :=
  let '(root, rel) := splitroot s in
  mkPath root (List.filter plain_part (split_slash rel)).

(** [p / s]: an absolute [s] replaces [p]. *)
Definition child (p : PurePath) (s : string) : PurePath :=
  let q := Path s in
  if String.eqb (path_root q) ""
  then mkPath (path_root p) (path_parts p ++ path_parts q)
  else q.

(** ["/".join(parts)]. *)
Fixpoint join_slash (parts : list string) : string :=
  match parts with
  | [] => ""
  | x :: rest =>
      match rest with
      | [] => x
      | _ => x +:+ "/" +:+ join_slash rest
      end
  end.

(** [str(p)]. *)
Definition path_str (p : PurePath) : string :=
  let s := path_root p +:+ join_slash (path_parts p) in
  if String.eqb s "" then "." else s.

(** [str(Path(dir) / name)]. *)
Definition joinpath (dir name : string) : string := path_str (child (Path dir) name).

Fixpoint no_slash (s : string) : bool :=
  match s with
  | EmptyString => true
  | String c rest => negb (Ascii.eqb c "/") && no_slash rest
  end.

(** [os.path.basename(path)]: what follows the last slash. *)
Fixpoint last_component (s : string) : string :=
  match s with
  | EmptyString => ""
  | String c rest =>
      if Ascii.eqb c "/" then last_component rest
      else if no_slash rest then s else last_component rest
  end.

(** [os.path.dirname(path)], without the trailing slash. *)
Definition dirname (path : string) : string :=
  join_slash (removelast (split_slash path)).

(** The extension [os.path.splitext] finds in a file name: what starts at
    its last dot, unless only dots precede that dot.  [seen] tells whether a
    character other than a dot has been passed. *)
Fixpoint ext_from (seen : bool) (name : string) : string :=
  match name with
  | EmptyString => ""
  | String c rest =>
      match ext_from (seen || negb (Ascii.eqb c ".")) rest with
      | EmptyString => if Ascii.eqb c "." && seen then name else ""
      | later => later
      end
  end.

Definition lower_ascii (c : ascii) : ascii :=
  let n := nat_of_ascii c in
  if ((65 <=? n) && (n <=? 90))%nat then ascii_of_nat (n + 32) else c.

(** [s.lower()]. *)
Fixpoint lower (s : string) : string :=
  match s with
  | EmptyString => ""
  | String c rest => String (lower_ascii c) (lower rest)
  end.

(** [os.path.splitext(path)[1].lower()], by which [Image.save] chooses the
    format. *)
Definition extension (path : string) : string :=
  lower (ext_from false (last_component path)).

(** [path.exists()]. *)
Definition exists_ (path : string) : M bool :=
  fun fs => (Return (bool_decide (is_Some (fs !! path))), fs).

(** [path.unlink()]: removes a file; fails on a missing path and on a
    directory. *)
Definition unlink (path : string) : M unit :=
  fun fs =>
    match fs !! path with
    | None => (Raise FileNotFoundError, fs)
    | Some Directory => (Raise IsADirectoryError, fs)
    | Some _ => (Return tt, delete path fs)
    end.

(** ** Pillow *)

Definition nonempty (sz : Z * Z) : bool := (0 <? sz.1) && (0 <? sz.2).

Definition MAX_IMAGE_PIXELS : Z := 1024 * 1024 * 1024 / 4 / 3.

(** Pillow's check against decompression bombs: a size of more than twice
    [MAX_IMAGE_PIXELS] pixels is refused. *)
Definition decompression_bomb (sz : Z * Z) : bool :=
  2 * MAX_IMAGE_PIXELS <? Z.max 1 sz.1 * Z.max 1 sz.2.

(** [Image.open(path)]: Pillow refuses files it cannot identify, files
    whose header announces an empty picture, and pictures too large.  A file
    that holds a picture is one Pillow reads in full: the pixel data is
    taken to load wherever the header is accepted. *)
Definition Image_open (path : string) : M Image :=
  fun fs =>
    match fs !! path with
    | None => (Raise FileNotFoundError, fs)
    | Some Directory => (Raise IsADirectoryError, fs)
    | Some OtherFile => (Raise UnidentifiedImageError, fs)
    | Some (ImageFile img) =>
        if nonempty (Image_size img) then
          if decompression_bomb (Image_size img)
          then (Raise DecompressionBombError, fs)
          else (Return img, fs)
        else (Raise UnidentifiedImageError, fs)
    end.

(** [img.save(path)]: the extension of [path] chooses the format, and a
    path without extension is refused; a directory cannot be opened for
    writing; the encoder refuses an empty picture ("tile cannot extend
    outside image"); otherwise the file is created or overwritten. *)
Definition Image_save (img : Image) (path : string) : M unit :=
  fun fs =>
    if String.eqb (extension path) "" then (Raise ValueError, fs)
    else if negb (String.eqb (extension path) ".png") then (Raise UnmodelledFormat, fs)
    else
      match fs !! path with
      | Some Directory => (Raise IsADirectoryError, fs)
      | _ =>
          if nonempty (Image_size img) then (Return tt, <[path := ImageFile img]> fs)
          else (Raise SystemError, fs)
      end.

Definition channel_difference (p q : rgb) : rgb :=
  let '(r1, g1, b1) := p in
  let '(r2, g2, b2) := q in
  (Z.abs (r1 - r2), Z.abs (g1 - g2), Z.abs (b1 - b2)).

(** [ImageChops.difference(a, b)]: per-channel absolute difference. *)
Definition ImageChops_difference (a b : RGBImage) : RGBImage :=
  mkRGB (Z.min (size a).1 (size b).1, Z.min (size a).2 (size b).2)
        (fun x y => channel_difference (getpixel a x y) (getpixel b x y)).

(** [img.getdata()]: the pixels, row by row. *)
Definition getdata (img : RGBImage) : list rgb :=
  concat ((fun y => (fun x => getpixel img x y) <$> seqZ 0 (size img).1)
            <$> seqZ 0 (size img).2).

(** ** Python arithmetic *)

(** [sum(xs)] on integers. *)
Definition py_sum (xs : list Z) : Z := foldr Z.add 0 xs.

(** [sum(pixel)] on an RGB tuple. *)
Definition sum_pixel (p : rgb) : Z := let '(r, g, b) := p in r + g + b.

(** The exponent [e] with [2 ^ e <= q < 2 ^ (e + 1)], for [q > 0]. *)
Definition floor_log2 (q : Q) : Z :=
  let k := Z.log2 (Qnum q) - Z.log2 (Zpos (Qden q)) in
  if Qle_bool (2 ^ k) q then k else k - 1.

(** The nearest integer, a tie going to the even one. *)
Definition round_half_even (x : Q) : Z :=
  let f := Qfloor x in
  match (x - inject_Z f ?= 1 # 2)%Q with
  | Lt => f
  | Gt => f + 1
  | Eq => if Z.even f then f else f + 1
  end.

(** The binary64 value nearest to [q > 0]: 53 significant bits, and steps
    of [2 ^ -1074] below the normal range. *)
Definition round_positive (q : Q) : Q :=
  let e := Z.max (floor_log2 q - 52) (-1074) in
  (inject_Z (round_half_even (q * 2 ^ (- e))) * 2 ^ e)%Q.

(** The binary64 value nearest to [q], in lowest terms.  Quotients beyond
    the range of binary64, for which CPython raises [OverflowError], do not
    arise from 8-bit pictures and are not told apart. *)
Definition round_double (q : Q) : Q :=
  let q := Qred q in
  match Qnum q with
  | 0 => 0%Q
  | Zpos _ => Qred (round_positive q)
  | Zneg _ => Qred (- round_positive (- q))
  end.

(** [a / b] on integers: the correctly rounded quotient. *)
Definition truediv (a b : Z) : M Q :=
  if decide (b = 0) then raise ZeroDivisionError
  else ret (round_double (inject_Z a / inject_Z b)).

(** [Image.new("RGB", size)]: a black picture. *)
Definition Image_new (sz : Z * Z) : RGBImage := mkRGB sz (fun _ _ => (0, 0, 0)).

Definition in_box (x0 y0 w h x y : Z) : bool :=
  (x0 <=? x) && (x <? x0 + w) && (y0 <=? y) && (y <? y0 + h).

(** [dst.paste(src, (x0, y0))]: [src] covers the box of its own size whose
    upper left corner is [(x0, y0)]. *)
Definition paste (dst src : RGBImage) (at_ : Z * Z) : RGBImage :=
  mkRGB (size dst)
        (fun x y =>
           if in_box at_.1 at_.2 (size src).1 (size src).2 x y
           then getpixel src (x - at_.1) (y - at_.2)
           else getpixel dst x y).

(** The lookup table of [img.point(f)] holds 8-bit entries: each [f i] is
    clipped to [0, 255] when the table is built. *)
Definition clip8 (v : Z) : Z := if v <=? 0 then 0 else if v <? 256 then v else 255.

Definition point (f : Z -> Z) (img : RGBImage) : RGBImage :=
  mkRGB (size img)
        (fun x y =>
           let '(r, g, b) := getpixel img x y in
           (clip8 (f r), clip8 (f g), clip8 (f b))).

Definition region : Type := Z * Z * Z * Z.

(** The picture [img.crop((left, top, right, bottom))] cuts out: pixels
    outside the source are black. *)
Definition crop_box (img : RGBImage) (box : region) : RGBImage :=
  let '(x0, y0, x1, y1) := box in
  mkRGB (x1 - x0, y1 - y0)
        (fun x y =>
           if in_box 0 0 (size img).1 (size img).2 (x + x0) (y + y0)
           then getpixel img (x + x0) (y + y0)
           else (0, 0, 0)).

(** [img.crop(box)]: a box whose right or bottom edge precedes the opposite
    one is refused, and so is a box too large. *)
Definition crop (img : RGBImage) (box : region) : M RGBImage :=
  let '(x0, y0, x1, y1) := box in
  if (x1 <? x0) || (y1 <? y0) then raise ValueError
  else if decompression_bomb (Z.abs (x1 - x0), Z.abs (y1 - y0))
  then raise DecompressionBombError
  else ret (crop_box img box).

(** ** Globbing *)

Definition ends_with (suffix s : string) : bool :=
  let n := String.length s in
  let k := String.length suffix in
  (k <=? n)%nat && String.eqb (String.substring (n - k) k s) suffix.

(** What [str(Path(dir) / entry)] puts before the name of an entry. *)
Definition child_prefix (dir : string) : string :=
  match path_parts (Path dir) with
  | [] => path_root (Path dir)
  | _ => path_str (Path dir) +:+ "/"
  end.

(** Does [path] name an entry of [dir] itself that matches ["*.png"]? *)
Definition matches_png (dir path : string) : bool :=
  let d := child_prefix dir in
  let base := String.substring (String.length d) (String.length path - String.length d) path in
  String.prefix d path
  && bool_decide (String.index 0 "/" base = None)
  && ends_with ".png" base.

(** [dir.glob("*.png")] lists the directory once and yields the matching
    entries in the order the operating system reports them, which pathlib
    leaves unspecified: [listing] is a possible result of the call. *)
Definition glob_png (dir : string) (fs : filesystem) (listing : list string) : Prop :=
  NoDup listing /\
  forall p, p ∈ listing <-> is_Some (fs !! p) /\ matches_png dir p = true.

(** [for x in xs: body(x)]. *)
Fixpoint for_each {A} (xs : list A) (body : A -> M unit) : M unit :=
  match xs with
  | [] => ret tt
  | x :: rest => body x ;;; for_each rest body
  end.

(** ** The class *)

Record ScreenshotCompare := mkSC { baseline_dir : string; diff_dir : string }.

Definition open_RGB (path : string) : M RGBImage :=
  img <- Image_open path ;; ret (convert_RGB img).

Section Comparator.

(** [img.resize(size)] interpolates with a bicubic filter; the values it
    produces are left open, only the size of the result is fixed. *)
Variable resample : RGBImage -> Z * Z -> Z -> Z -> rgb.

Definition resize (img : RGBImage) (sz : Z * Z) : RGBImage :=
  mkRGB sz (resample img sz).

Definition compare_images (self : ScreenshotCompare)
    (image1_path image2_path : string) (threshold : Q)
    (ignore_antialiasing : bool) : M (bool * Q) :=
  img1 <- open_RGB image1_path ;;
  img2 <- open_RGB image2_path ;;
  if negb (bool_decide (size img1 = size img2)) then ret (false, 1%Q)
  else
    let diff := ImageChops_difference img1 img2 in
    let diff_pixels := py_sum (sum_pixel <$> getdata diff) in
    let total_pixels := (size img1).1 * (size img1).2 * 3 * 255 in
    difference <- truediv diff_pixels total_pixels ;;
    let is_similar := Qle_bool difference threshold in
    ret (is_similar, difference).

(** The picture [create_diff_image] hands to [comparison.save].  The
    [ImageDraw.Draw] object the method creates is never drawn with. *)
Definition comparison_of (baseline current : RGBImage) : RGBImage :=
  let current :=
    if negb (bool_decide (size baseline = size current))
    then resize current (size baseline) else current in
  let diff := ImageChops_difference baseline current in
  let diff := point (fun x => x * 10) diff in
  let width := (size baseline).1 * 3 in
  let height := (size baseline).2 in
  let comparison := Image_new (width, height) in
  let comparison := paste comparison baseline (0, 0) in
  let comparison := paste comparison current ((size baseline).1, 0) in
  let comparison := paste comparison diff ((size baseline).1 * 2, 0) in
  comparison.

Definition create_diff_image (self : ScreenshotCompare)
    (baseline_path current_path output_path : string) : M unit :=
  baseline <- open_RGB baseline_path ;;
  current <- open_RGB current_path ;;
  Image_save (ModeRGB (comparison_of baseline current)) output_path.

Definition save_baseline (self : ScreenshotCompare)
    (screenshot_path name : string) : M string :=
  let baseline_path := joinpath (baseline_dir self) (name +:+ ".png") in
  img <- Image_open screenshot_path ;;
  Image_save img baseline_path ;;;
  ret baseline_path.

Definition compare_with_baseline (self : ScreenshotCompare)
    (screenshot_path name : string) (threshold : Q) (save_diff : bool)
    : M (bool * Q * option string) :=
  let baseline_path := joinpath (baseline_dir self) (name +:+ ".png") in
  present <- exists_ baseline_path ;;
  if negb present then
    save_baseline self screenshot_path name ;;;
    ret (true, 0%Q, None)
  else
    r <- compare_images self baseline_path screenshot_path threshold true ;;
    let '(is_similar, difference) := r in
    if negb is_similar && save_diff then
      let diff_path := joinpath (diff_dir self) (name +:+ "_diff.png") in
      create_diff_image self baseline_path screenshot_path diff_path ;;;
      ret (is_similar, difference, Some diff_path)
    else ret (is_similar, difference, None).

Definition update_baseline (self : ScreenshotCompare)
    (screenshot_path name : string) : M string :=
  save_baseline self screenshot_path name.

Definition compare_regions (self : ScreenshotCompare)
    (image1_path image2_path : string) (box : region) (threshold : Q)
    : M (bool * Q) :=
  img1 <- open_RGB image1_path ;;
  img2 <- open_RGB image2_path ;;
  region1 <- crop img1 box ;;
  region2 <- crop img2 box ;;
  let temp_path1 := joinpath (diff_dir self) "temp_region1.png" in
  let temp_path2 := joinpath (diff_dir self) "temp_region2.png" in
  Image_save (ModeRGB region1) temp_path1 ;;;
  Image_save (ModeRGB region2) temp_path2 ;;;
  result <- compare_images self temp_path1 temp_path2 threshold true ;;
  unlink temp_path1 ;;;
  unlink temp_path2 ;;;
  ret result.

(** [listing] is what [self.diff_dir.glob("*.png")] yields. *)
Definition clear_diffs (self : ScreenshotCompare) (listing : list string) : M unit :=
  for_each listing (fun diff_file => unlink diff_file).

(** [listing] is what [self.baseline_dir.glob("*.png")] yields. *)
Definition clear_baselines (self : ScreenshotCompare) (listing : list string) : M unit :=
  for_each listing (fun baseline_file => unlink baseline_file).

End Comparator.

(** ** The ratio as the specification words it *)

(** [sigma n f] is [f 0 + ... + f (n - 1)]. *)
Fixpoint sigma (n : nat) (f : Z -> Z) : Z :=
  match n with
  | O => 0
  | S k => sigma k f + f (Z.of_nat k)
  end.

(** The absolute per-channel differences of one pixel pair, added up. *)
Definition pixel_gap (p q : rgb) : Z :=
  Z.abs (p.1.1 - q.1.1) + Z.abs (p.1.2 - q.1.2) + Z.abs (p.2 - q.2).

(** The sum, over all pixels of the bounding box of [a], of the absolute
    per-channel differences between [a] and [b]. *)
Definition total_gap (a b : RGBImage) : Z :=
  sigma (Z.to_nat (size a).2) (fun y =>
    sigma (Z.to_nat (size a).1) (fun x =>
      pixel_gap (getpixel a x y) (getpixel b x y))).

(** That sum, normalised by [width * height * 3 * 255], as a float. *)
Definition spec_difference_ratio (a b : RGBImage) : Q :=
  round_double (inject_Z (total_gap a b)
                / inject_Z ((size a).1 * (size a).2 * 3 * 255)).

(** Pillow chooses the PNG encoder for [path]. *)
Definition png_path (path : string) : Prop := extension path = ".png".

(** The directory that is to hold [path] is there: the working directory
    or the root, one of the two directories [__init__] made, or a directory
    the file system holds. *)
Definition parent_ready (self : ScreenshotCompare) (fs : filesystem)
    (path : string) : Prop :=
  dirname path = ""
  \/ dirname path = path_str (Path (baseline_dir self))
  \/ dirname path = path_str (Path (diff_dir self))
  \/ fs !! dirname path = Some Directory.

(** [Image.save] can write a PNG file at [path]. *)
Definition writable_png (self : ScreenshotCompare) (fs : filesystem)
    (path : string) : Prop :=
  png_path path /\ parent_ready self fs path /\ fs !! path <> Some Directory.

(** The per-channel absolute difference of two pixels, multiplied by ten and
    capped at 255. *)
Definition spec_amplified_gap (p q : rgb) : rgb :=
  (Z.min 255 (10 * Z.abs (p.1.1 - q.1.1)),
   Z.min 255 (10 * Z.abs (p.1.2 - q.1.2)),
   Z.min 255 (10 * Z.abs (p.2 - q.2))).

(** What a housekeeping loop [clear] over the ["*.png"] entries of [dir]
    does: with no directory among the entries it returns and no such entry
    is left, nothing else being touched; otherwise it raises at the first
    directory it meets, having deleted exactly the entries listed before
    it. *)
Definition unlinks_until_first_failure (dir : string)
    (clear : list string -> M unit) : Prop :=
  forall (fs : filesystem) (listing : list string),
    glob_png dir fs listing ->
    ((forall p, p ∈ listing -> fs !! p <> Some Directory) ->
     exists fs' : filesystem,
       clear listing fs = (Return tt, fs')
       /\ (forall p, matches_png dir p = true -> fs' !! p = None)
       /\ (forall q, matches_png dir q = false -> fs' !! q = fs !! q))
    /\ (forall (before : list string) (d : string) (after : list string),
          listing = (before ++ d :: after)%list ->
          (forall p, p ∈ before -> fs !! p <> Some Directory) ->
          fs !! d = Some Directory ->
          exists fs' : filesystem,
            clear listing fs = (Raise IsADirectoryError, fs')
            /\ (forall p, p ∈ before -> fs' !! p = None)
            /\ (forall q, q ∉ before -> fs' !! q = fs !! q)).

(** [path] holds a picture that decodes, in mode RGB, to [img]. *)
Definition decodes (fs : filesystem) (path : string) (img : RGBImage) : Prop :=
  open_RGB path fs = (Return img, fs).

(** ** Sample data *)

Definition solid (sz : Z * Z) (colour : rgb) : RGBImage := mkRGB sz (fun _ _ => colour).

Definition white : rgb := (255, 255, 255).
Definition black : rgb := (0, 0, 0).

(** A 2x1 picture: one red pixel, one blue pixel. *)
Definition red_blue : RGBImage :=
  mkRGB (2, 1) (fun x _ => if x =? 0 then (255, 0, 0) else (0, 0, 255)).

(** The same picture with the two pixels swapped. *)
Definition blue_red : RGBImage :=
  mkRGB (2, 1) (fun x _ => if x =? 0 then (0, 0, 255) else (255, 0, 0)).

(** A grey-level 2x2 picture. *)
Definition grey_ramp : Image := ModeL (2, 2) (fun x y => 10 * x + 100 * y).

(** Nearest-neighbour sampling, one possible [resample]. *)
Definition nearest (img : RGBImage) (sz : Z * Z) (x y : Z) : rgb :=
  getpixel img (x * (size img).1 / sz.1) (y * (size img).2 / sz.2).

Definition sc : ScreenshotCompare := mkSC "visual/baselines" "visual/diffs".

Definition shots : filesystem :=
  {[ "shot.png" := ImageFile (ModeRGB red_blue);
     "other.png" := ImageFile (ModeRGB blue_red);
     "white.png" := ImageFile (ModeRGB (solid (100, 100) white));
     "black.png" := ImageFile (ModeRGB (solid (100, 100) black));
     "grey.png" := ImageFile grey_ramp ]}.

(** [shots] with a directory where [compare_regions] puts its second
    temporary file. *)
Definition blocked : filesystem :=
  <["visual/diffs/temp_region2.png" := Directory]> shots.

(** A diff directory that holds a sub-directory named like a picture, and
    one diff artifact. *)
Definition cluttered : filesystem :=
  {[ "visual/diffs/old.png" := Directory;
     "visual/diffs/home_diff.png" := ImageFile (ModeRGB red_blue) ]}.

(** A diff directory with one artifact, next to a file that is not one. *)
Definition tidy : filesystem :=
  {[ "visual/diffs/home_diff.png" := ImageFile (ModeRGB red_blue);
     "visual/diffs/notes.txt" := OtherFile ]}.

(** [shots] once ["home"] has a baseline. *)
Definition baselined : filesystem :=
  <["visual/baselines/home.png" := ImageFile (ModeRGB red_blue)]> shots.

(** One directory for the baselines and for the diff artifacts. *)
Definition shared : ScreenshotCompare := mkSC "visual/shots" "visual/shots".

(** Two baselines in that directory, ["home"] and ["home_diff"], and a
    screenshot elsewhere. *)
Definition shelf : filesystem :=
  {[ "visual/shots/home.png" := ImageFile (ModeRGB red_blue);
     "visual/shots/home_diff.png" := ImageFile (ModeRGB blue_red);
     "other.png" := ImageFile (ModeRGB blue_red) ]}.

(** ** The perceptual hash *)

(** [str(n)] on an integer. *)
Definition py_str (n : Z) : string :=
  DecimalString.NilEmpty.string_of_int (Z.to_int n).

(** [int(bits, 2)] on a literal made of binary digits, the only form
    [get_image_hash] builds.  [None] stands for the [ValueError] raised on
    the empty literal; the literals with other characters are not modelled
    and give [None] too. *)
Fixpoint int_base2_from (acc : Z) (bits : string) : option Z :=
  match bits with
  | EmptyString => Some acc
  | String c rest =>
      if Ascii.eqb c "0" then int_base2_from (2 * acc) rest
      else if Ascii.eqb c "1" then int_base2_from (2 * acc + 1) rest
      else None
  end.

Definition int_base2 (bits : string) : option Z :=
  match bits with
  | EmptyString => None
  | _ => int_base2_from 0 bits
  end.

(** ["".join(parts)]. *)
Definition join (parts : list string) : string := foldr String.append "" parts.

(** [img.convert("L").resize((8, 8), Image.Resampling.LANCZOS)]: the grey
    level of each cell of the 8x8 thumbnail, a byte as in every picture of
    mode L; the arithmetic of the filter is left open. *)
Record thumbnail_filter := mkFilter {
  levels :> Image -> Z -> Z -> Z;
  levels_byte : forall img x y, 0 <= levels img x y <= 255 }.

Section Hash.

Variable thumbnail : thumbnail_filter.

(** [hashlib.md5(s.encode()).hexdigest()]. *)
Variable md5_hexdigest : string -> string.

(** [list(img.getdata())] of the thumbnail. *)
Definition thumbnail_data (img : Image) : list Z :=
  concat ((fun y => (fun x => thumbnail img x y) <$> seqZ 0 8) <$> seqZ 0 8).

(** ["1" if pixel > avg else "0"]. *)
Definition bit_of (avg : Q) (pixel : Z) : string :=
  if negb (Qle_bool (inject_Z pixel) avg) then "1" else "0".

Definition get_image_hash (self : ScreenshotCompare) (image_path : string)
    : M string :=
  img <- Image_open image_path ;;
  let pixels := thumbnail_data img in
  avg <- truediv (py_sum pixels) (Z.of_nat (length pixels)) ;;
  let bits := join (bit_of avg <$> pixels) in
  match int_base2 bits with
  | None => raise ValueError
  | Some hash_int => ret (md5_hexdigest (py_str hash_int))
  end.

End Hash.

(** ** Properties of pictures used below *)

(** What [compare_images] yields, for two pictures that decode. *)
Definition verdict (i1 i2 : RGBImage) (t : Q) : bool * Q :=
  if bool_decide (size i1 = size i2)
  then (Qle_bool (spec_difference_ratio i1 i2) t, spec_difference_ratio i1 i2)
  else (false, 1%Q).

(** Every channel of every pixel of the bounding box is an 8-bit value. *)
Definition eight_bit (img : RGBImage) : Prop :=
  forall x y, 0 <= x < (size img).1 -> 0 <= y < (size img).2 ->
    (0 <= (getpixel img x y).1.1 <= 255)
    /\ (0 <= (getpixel img x y).1.2 <= 255)
    /\ (0 <= (getpixel img x y).2 <= 255).

(** [a] and [b] hold the same pixel at every position of the box of [a]. *)
Definition same_pixels (a b : RGBImage) : Prop :=
  forall x y, 0 <= x < (size a).1 -> 0 <= y < (size a).2 ->
    getpixel a x y = getpixel b x y.

(** A thumbnail for the samples: the grey level found at the cell's
    coordinates in a grey-level picture, 0 for the other modes. *)
Definition probe_level (img : Image) (x y : Z) : Z :=
  clip8 match img with
        | ModeL _ px => px x y
        | _ => 0
        end.

Definition probe : thumbnail_filter :=
  mkFilter probe_level
    ltac:(intros img x y; unfold probe_level, clip8;
          destruct (Z.leb_spec match img with ModeL _ px => px x y | _ => 0 end 0);
          [|destruct (Z.ltb_spec match img with ModeL _ px => px x y | _ => 0 end 256)];
          lia).

(** A digest for the samples. *)
Definition tag (s : string) : string := "md5:" +:+ s.

(** A grey-level 8x8 picture, and the same made brighter and more
    contrasted. *)
Definition grey_board : Image := ModeL (8, 8) (fun x y => x + 10 * y).
Definition grey_board_bright : Image := ModeL (8, 8) (fun x y => 3 * (x + 10 * y) + 7).

Definition greys : filesystem :=
  {[ "grey.png" := ImageFile grey_board;
     "bright.png" := ImageFile grey_board_bright;
     "flat.png" := ImageFile (ModeL (4, 4) (fun _ _ => 90)) ]}.

(** A baseline store holding one baseline, and a screenshot elsewhere. *)
Definition stocked : filesystem :=
  {[ "visual/baselines/home.png" := ImageFile (ModeRGB red_blue);
     "shot.png" := ImageFile (ModeRGB blue_red) ]}.

(** ** Sequencing *)

Lemma bind_Return {A B} (m : M A) (k : A -> M B) (fs fs' : filesystem) (a : A) :
  m fs = (Return a, fs') -> bind m k fs = k a fs'.
Proof. intros H. unfold bind. rewrite H. reflexivity. Qed.

Lemma bind_Raise {A B} (m : M A) (k : A -> M B) (fs fs' : filesystem) (e : exn) :
  m fs = (Raise e, fs') -> bind m k fs = (Raise e, fs').
Proof. intros H. unfold bind. rewrite H. reflexivity. Qed.

(** ** Floats *)

Lemma two_nonzero : ~ (2 == 0)%Q.
Proof. discriminate. Qed.

Lemma Qpower_two_pos (z : Z) : (0 < 2 ^ z)%Q.
Proof. apply Qpower_0_lt. reflexivity. Qed.

Lemma Qpower_two_Z (n : Z) : 0 <= n -> (2 ^ n == inject_Z (2 ^ n))%Q.
Proof. intros Hn. symmetry. apply (Zpower_Qpower 2 n Hn). Qed.

Lemma Qpower_two_cancel (e : Z) : (2 ^ (- e) * 2 ^ e == 1)%Q.
Proof.
  rewrite <- Qpower_plus by exact two_nonzero.
  replace (- e + e) with 0 by lia. reflexivity.
Qed.

Lemma floor_log2_le (q : Q) : (0 < q)%Q -> (2 ^ floor_log2 q <= q)%Q.
Proof.
  intros Hq. unfold floor_log2. destruct q as [n d]. cbn [Qnum Qden].
  assert (Hn : 0 < n) by (unfold Qlt in Hq; simpl in Hq; lia).
  destruct (Z.log2_spec n Hn) as [Ha _].
  destruct (Z.log2_spec (Z.pos d) (Pos2Z.is_pos d)) as [_ Hb].
  revert Ha Hb.
  generalize (Z.log2_nonneg n) (Z.log2_nonneg (Z.pos d)).
  generalize (Z.log2 n) (Z.log2 (Z.pos d)). intros a b Ha0 Hb0 Ha Hb.
  destruct (Qle_bool (2 ^ (a - b)) (n # d)) eqn:E; [apply Qle_bool_iff; exact E|].
  clear E.
  replace (a - b - 1) with (a - Z.succ b) by lia.
  rewrite Qpower_minus by exact two_nonzero.
  rewrite (Qpower_two_Z a), (Qpower_two_Z (Z.succ b)) by lia.
  assert (HA : 0 < 2 ^ a) by (apply Z.pow_pos_nonneg; lia).
  assert (HB : 0 < 2 ^ Z.succ b) by (apply Z.pow_pos_nonneg; lia).
  apply Qle_shift_div_r.
  - change 0%Q with (inject_Z 0). rewrite <- Zlt_Qlt. exact HB.
  - unfold Qle, Qmult, inject_Z. simpl. rewrite Pos.mul_1_r.
    rewrite !Z.mul_1_r. nia.
Qed.

Lemma floor_log2_neg (q : Q) : (0 < q)%Q -> (q < 1)%Q -> floor_log2 q < 0.
Proof.
  intros Hq H1. destruct (Z.lt_ge_cases (floor_log2 q) 0) as [|Hge]; [assumption|].
  exfalso. apply (Qlt_not_le _ _ H1).
  apply Qle_trans with (2 ^ floor_log2 q)%Q; [|apply floor_log2_le; exact Hq].
  apply Qpower_1_le; [discriminate|exact Hge].
Qed.

Lemma round_half_even_floor (x : Q) :
  Qfloor x <= round_half_even x <= Qfloor x + 1.
Proof.
  unfold round_half_even.
  destruct (x - inject_Z (Qfloor x) ?= 1 # 2)%Q; [destruct (Z.even _)| |]; lia.
Qed.

Lemma round_half_even_ge (x : Q) (n : Z) :
  (inject_Z n <= x)%Q -> n <= round_half_even x.
Proof.
  intros H. apply Qfloor_resp_le in H. rewrite Qfloor_Z in H.
  pose proof (round_half_even_floor x). lia.
Qed.

Lemma round_half_even_le (x : Q) (n : Z) :
  (x < inject_Z n)%Q -> round_half_even x <= n.
Proof.
  intros H. pose proof (Qfloor_le x) as Hf.
  assert (Hlt : (inject_Z (Qfloor x) < inject_Z n)%Q) by (eapply Qle_lt_trans; eassumption).
  rewrite <- Zlt_Qlt in Hlt. pose proof (round_half_even_floor x). lia.
Qed.

Lemma round_positive_nonneg (q : Q) : (0 <= q)%Q -> (0 <= round_positive q)%Q.
Proof.
  intros Hq. unfold round_positive. apply Qmult_le_0_compat.
  - change 0%Q with (inject_Z 0). rewrite <- Zle_Qle. apply round_half_even_ge.
    apply Qmult_le_0_compat; [exact Hq|]. apply Qlt_le_weak, Qpower_two_pos.
  - apply Qlt_le_weak, Qpower_two_pos.
Qed.

Lemma round_positive_le_one (q : Q) :
  (0 < q)%Q -> (q < 1)%Q -> (round_positive q <= 1)%Q.
Proof.
  intros Hq H1. pose proof (floor_log2_neg q Hq H1) as Hfl.
  unfold round_positive. set (e := Z.max (floor_log2 q - 52) (-1074)).
  assert (He : e < 0) by (unfold e; lia).
  assert (HP : (2 ^ (- e) == inject_Z (2 ^ (- e)))%Q) by (apply Qpower_two_Z; lia).
  rewrite <- (Qpower_two_cancel e).
  apply Qmult_le_compat_r; [|apply Qlt_le_weak, Qpower_two_pos].
  apply Qle_trans with (inject_Z (2 ^ (- e))); [|rewrite HP; apply Qle_refl].
  rewrite <- Zle_Qle. apply round_half_even_le. rewrite <- HP.
  apply Qlt_le_trans with (1 * 2 ^ (- e))%Q.
  - apply Qmult_lt_r; [apply Qpower_two_pos|exact H1].
  - rewrite Qmult_1_l. apply Qle_refl.
Qed.

Lemma round_positive_pos (q : Q) :
  (0 < q)%Q -> (2 ^ (-1074) <= q)%Q -> (0 < round_positive q)%Q.
Proof.
  intros Hq Hmin. unfold round_positive.
  set (e := Z.max (floor_log2 q - 52) (-1074)).
  apply Qmult_lt_0_compat; [|apply Qpower_two_pos].
  change 0%Q with (inject_Z 0). rewrite <- Zlt_Qlt.
  apply Z.lt_le_trans with 1; [lia|]. apply round_half_even_ge.
  assert (Hle : (2 ^ e <= q)%Q).
  { destruct (Z.max_spec (floor_log2 q - 52) (-1074)) as [[_ Heq]|[_ Heq]];
      fold e in Heq; rewrite Heq.
    - exact Hmin.
    - apply Qle_trans with (2 ^ floor_log2 q)%Q; [|apply floor_log2_le; exact Hq].
      apply Qpower_le_compat_l; [lia|discriminate]. }
  rewrite <- (Qpower_two_cancel (- e)). rewrite Z.opp_involutive.
  assert (Hc : (2 ^ e * 2 ^ (- e) <= q * 2 ^ (- e))%Q).
  { apply Qmult_le_compat_r; [exact Hle|apply Qlt_le_weak, Qpower_two_pos]. }
  exact Hc.
Qed.

Lemma Qred_num_pos (q : Q) (p : positive) : Qnum (Qred q) = Z.pos p -> (0 < q)%Q.
Proof.
  intros H. rewrite <- (Qred_correct q). unfold Qlt. simpl. rewrite H. lia.
Qed.

Lemma Qred_num_neg (q : Q) (p : positive) : Qnum (Qred q) = Z.neg p -> (q < 0)%Q.
Proof.
  intros H. rewrite <- (Qred_correct q). unfold Qlt. simpl. rewrite H. lia.
Qed.

Lemma Qred_num_zero (q : Q) : Qnum (Qred q) = 0 -> (q == 0)%Q.
Proof.
  intros H. rewrite <- (Qred_correct q). unfold Qeq. simpl. rewrite H. lia.
Qed.

(** Equal rationals round to the same float. *)
Lemma round_double_proper (q q' : Q) : (q == q')%Q -> round_double q = round_double q'.
Proof. intros H. unfold round_double. rewrite (Qred_complete _ _ H). reflexivity. Qed.

Lemma round_double_zero (q : Q) : (q == 0)%Q -> round_double q = 0%Q.
Proof. intros H. rewrite (round_double_proper _ _ H). reflexivity. Qed.

Lemma round_double_one (q : Q) : (q == 1)%Q -> round_double q = 1%Q.
Proof. intros H. rewrite (round_double_proper _ _ H). vm_compute. reflexivity. Qed.

Lemma round_double_nonneg (q : Q) : (0 <= q)%Q -> (0 <= round_double q)%Q.
Proof.
  intros Hq. unfold round_double. destruct (Qnum (Qred q)) as [|p|p] eqn:E.
  - apply Qle_refl.
  - rewrite Qred_correct. apply round_positive_nonneg.
    rewrite Qred_correct. exact Hq.
  - apply Qred_num_neg in E. exfalso. exact (Qlt_not_le _ _ E Hq).
Qed.

Lemma round_double_le_one (q : Q) : (0 <= q)%Q -> (q <= 1)%Q -> (round_double q <= 1)%Q.
Proof.
  intros H0 H1. destruct (Qle_lt_or_eq _ _ H1) as [Hlt|Heq].
  - unfold round_double. destruct (Qnum (Qred q)) as [|p|p] eqn:E.
    + discriminate.
    + rewrite Qred_correct. apply Qred_num_pos in E.
      apply round_positive_le_one; rewrite Qred_correct; assumption.
    + apply Qred_num_neg in E. exfalso. exact (Qlt_not_le _ _ E H0).
  - rewrite (round_double_one _ Heq). apply Qle_refl.
Qed.

Lemma round_double_pos (q : Q) :
  (0 < q)%Q -> (2 ^ (-1074) <= q)%Q -> (0 < round_double q)%Q.
Proof.
  intros Hq Hmin. unfold round_double. destruct (Qnum (Qred q)) as [|p|p] eqn:E.
  - apply Qred_num_zero in E. rewrite E in Hq. discriminate.
  - rewrite Qred_correct. apply round_positive_pos; rewrite Qred_correct; assumption.
  - apply Qred_num_neg in E. exfalso. exact (Qlt_irrefl _ (Qlt_trans _ _ _ E Hq)).
Qed.

Lemma floor_log2_lt (q : Q) (z : Z) : (0 < q)%Q -> (q < 2 ^ z)%Q -> floor_log2 q < z.
Proof.
  intros Hq Hlt. destruct (Z.lt_ge_cases (floor_log2 q) z) as [|Hge]; [assumption|].
  exfalso. apply (Qlt_not_le _ _ Hlt).
  apply Qle_trans with (2 ^ floor_log2 q)%Q; [|apply floor_log2_le; exact Hq].
  apply Qpower_le_compat_l; [exact Hge|discriminate].
Qed.

Lemma round_half_even_Z (x : Q) (n : Z) : (x == inject_Z n)%Q -> round_half_even x = n.
Proof.
  intros H. unfold round_half_even. rewrite (Qfloor_comp _ _ H), Qfloor_Z.
  assert (Hc : (x - inject_Z n ?= 1 # 2)%Q = Lt).
  { apply Qlt_alt. rewrite H. unfold Qminus. rewrite Qplus_opp_r. reflexivity. }
  rewrite Hc. reflexivity.
Qed.

(** A quotient [m / 2 ^ k] whose numerator fits in 53 bits is a float. *)
Lemma round_positive_exact (q : Q) (m k : Z) :
  0 < m < 2 ^ 53 -> 0 <= k <= 1074 ->
  (q == inject_Z m * 2 ^ (- k))%Q -> (round_positive q == q)%Q.
Proof.
  intros Hm Hk Hq.
  assert (Hpos : (0 < q)%Q).
  { rewrite Hq. apply Qmult_lt_0_compat; [|apply Qpower_two_pos].
    change 0%Q with (inject_Z 0). rewrite <- Zlt_Qlt. lia. }
  assert (Hfl : floor_log2 q < 53 - k).
  { apply floor_log2_lt; [exact Hpos|]. rewrite Hq.
    replace (53 - k) with (53 + - k) by lia.
    rewrite Qpower_plus by exact two_nonzero.
    apply Qmult_lt_r; [apply Qpower_two_pos|].
    rewrite (Qpower_two_Z 53) by lia. rewrite <- Zlt_Qlt. lia. }
  unfold round_positive. set (e := Z.max (floor_log2 q - 52) (-1074)).
  assert (He : e <= - k) by (unfold e; lia).
  assert (HP : (2 ^ (- e - k) == inject_Z (2 ^ (- e - k)))%Q)
    by (apply Qpower_two_Z; lia).
  assert (Hx : (q * 2 ^ (- e) == inject_Z (m * 2 ^ (- e - k)))%Q).
  { rewrite Hq, inject_Z_mult, <- HP.
    rewrite <- Qmult_assoc, <- Qpower_plus by exact two_nonzero.
    replace (- k + - e) with (- e - k) by lia. reflexivity. }
  rewrite (round_half_even_Z _ _ Hx).
  rewrite inject_Z_mult, <- HP.
  rewrite <- Qmult_assoc, <- Qpower_plus by exact two_nonzero.
  replace (- e - k + e) with (- k) by lia. symmetry. exact Hq.
Qed.

Lemma round_double_exact (q : Q) (m k : Z) :
  0 <= m < 2 ^ 53 -> 0 <= k <= 1074 ->
  (q == inject_Z m * 2 ^ (- k))%Q -> round_double q = Qred q.
Proof.
  intros Hm Hk Hq. destruct (decide (m = 0)) as [->|Hne].
  - rewrite Qmult_0_l in Hq. rewrite (round_double_zero _ Hq).
    change 0%Q with (Qred 0). symmetry. apply Qred_complete. exact Hq.
  - assert (Hq' : (Qred q == inject_Z m * 2 ^ (- k))%Q)
      by (rewrite Qred_correct; exact Hq).
    assert (Hpos : (0 < q)%Q).
    { rewrite Hq. apply Qmult_lt_0_compat; [|apply Qpower_two_pos].
      change 0%Q with (inject_Z 0). rewrite <- Zlt_Qlt. lia. }
    unfold round_double. destruct (Qnum (Qred q)) as [|p|p] eqn:E.
    + apply Qred_num_zero in E. rewrite E in Hpos. discriminate.
    + rewrite (Qred_complete _ _ (round_positive_exact (Qred q) m k ltac:(lia) Hk Hq')).
      apply Qred_complete, Qred_correct.
    + apply Qred_num_neg in E. exfalso. exact (Qlt_irrefl _ (Qlt_trans _ _ _ E Hpos)).
Qed.

(** The mean of 64 integers whose sum fits in 53 bits is not rounded. *)
Lemma mean_of_64_exact (total : Z) :
  0 <= total < 2 ^ 53 ->
  round_double (inject_Z total / inject_Z 64) = Qred (inject_Z total / inject_Z 64).
Proof.
  intros H. apply (round_double_exact _ total 6 H); [lia|]. reflexivity.
Qed.

(** ** Sums *)

Lemma py_sum_app (l1 l2 : list Z) : py_sum (l1 ++ l2) = py_sum l1 + py_sum l2.
Proof.
  induction l1 as [|a l1 IH]; simpl; [reflexivity|]. rewrite IH. lia.
Qed.

Lemma py_sum_seqZ (f : Z -> Z) (n : Z) :
  py_sum (f <$> seqZ 0 n) = sigma (Z.to_nat n) f.
Proof.
  destruct (Z_lt_le_dec n 0) as [Hn|Hn].
  - rewrite seqZ_nil by lia. replace (Z.to_nat n) with O by lia. reflexivity.
  - rewrite <- (Z2Nat.id n Hn) at 1.
    induction (Z.to_nat n) as [|k IH]; [reflexivity|].
    rewrite seqZ_S, fmap_app, py_sum_app, IH. simpl. rewrite Z.add_0_l. lia.
Qed.

Lemma py_sum_concat (g : rgb -> Z) (rows : list (list rgb)) :
  py_sum (g <$> concat rows) = py_sum ((fun row => py_sum (g <$> row)) <$> rows).
Proof.
  induction rows as [|row rows IH]; simpl; [reflexivity|].
  rewrite fmap_app, py_sum_app, IH. reflexivity.
Qed.

Lemma sigma_ext (n : nat) (f g : Z -> Z) :
  (forall i, 0 <= i < Z.of_nat n -> f i = g i) -> sigma n f = sigma n g.
Proof.
  induction n as [|k IH]; intros H; simpl; [reflexivity|].
  rewrite IH by (intros; apply H; lia). rewrite H by lia. reflexivity.
Qed.

Lemma sigma_const (n : nat) (c : Z) : sigma n (fun _ => c) = Z.of_nat n * c.
Proof. induction n as [|k IH]; simpl; [reflexivity|]. rewrite IH. lia. Qed.

Lemma sum_getdata (g : rgb -> Z) (img : RGBImage) :
  py_sum (g <$> getdata img)
  = sigma (Z.to_nat (size img).2) (fun y =>
      sigma (Z.to_nat (size img).1) (fun x => g (getpixel img x y))).
Proof.
  unfold getdata. rewrite py_sum_concat, <- list_fmap_compose.
  rewrite <- py_sum_seqZ. f_equal. apply list_fmap_ext. intros _ y _. simpl.
  rewrite <- list_fmap_compose. apply py_sum_seqZ.
Qed.

Lemma sum_pixel_difference (p q : rgb) :
  sum_pixel (channel_difference p q) = pixel_gap p q.
Proof. destruct p as [[r1 g1] b1], q as [[r2 g2] b2]. reflexivity. Qed.

(** The integer [compare_images] divides is the sum the specification
    describes. *)
Lemma diff_pixels_total_gap (a b : RGBImage) :
  size a = size b ->
  py_sum (sum_pixel <$> getdata (ImageChops_difference a b)) = total_gap a b.
Proof.
  intros Hsz. rewrite sum_getdata. unfold total_gap. simpl. rewrite <- Hsz.
  rewrite !Z.min_id. apply sigma_ext. intros y _. apply sigma_ext. intros x _.
  apply sum_pixel_difference.
Qed.

(** ** Opening pictures *)

Lemma open_RGB_state (path : string) (fs fs' : filesystem) (o : outcome RGBImage) :
  open_RGB path fs = (o, fs') -> fs' = fs.
Proof.
  unfold open_RGB, bind, Image_open, ret. intros H.
  destruct (fs !! path) as [[img| |]|]; try (inversion H; reflexivity).
  destruct (nonempty (Image_size img)); [|inversion H; reflexivity].
  destruct (decompression_bomb (Image_size img)); inversion H; reflexivity.
Qed.

Lemma size_convert_RGB (img : Image) : size (convert_RGB img) = Image_size img.
Proof. destruct img; reflexivity. Qed.

Lemma decodes_inv (fs : filesystem) (path : string) (img : RGBImage) :
  decodes fs path img ->
  exists raw, fs !! path = Some (ImageFile raw) /\ img = convert_RGB raw
              /\ nonempty (Image_size raw) = true.
Proof.
  unfold decodes, open_RGB, bind, Image_open, ret. intros H.
  destruct (fs !! path) as [[raw| |]|]; try discriminate.
  destruct (nonempty (Image_size raw)) eqn:Hne; [|discriminate].
  destruct (decompression_bomb (Image_size raw)); [discriminate|].
  exists raw. inversion H. auto.
Qed.

(** A picture that decodes is not too large for Pillow. *)
Lemma decodes_small (fs : filesystem) (path : string) (img : RGBImage) :
  decodes fs path img -> decompression_bomb (size img) = false.
Proof.
  unfold decodes, open_RGB, bind, Image_open, ret. intros H.
  destruct (fs !! path) as [[raw| |]|]; try discriminate.
  destruct (nonempty (Image_size raw)); [|discriminate].
  destruct (decompression_bomb (Image_size raw)) eqn:Hb; [discriminate|].
  inversion H. rewrite size_convert_RGB. exact Hb.
Qed.

Lemma decodes_intro (fs : filesystem) (path : string) (raw : Image) :
  fs !! path = Some (ImageFile raw) -> nonempty (Image_size raw) = true ->
  decompression_bomb (Image_size raw) = false ->
  decodes fs path (convert_RGB raw).
Proof.
  intros Hl Hne Hb. unfold decodes, open_RGB, bind, Image_open, ret.
  rewrite Hl, Hne, Hb. reflexivity.
Qed.

Lemma decodes_nonempty (fs : filesystem) (path : string) (img : RGBImage) :
  decodes fs path img -> 0 < (size img).1 /\ 0 < (size img).2.
Proof.
  intros (raw & _ & -> & Hne)%decodes_inv. rewrite size_convert_RGB.
  unfold nonempty in Hne. apply andb_true_iff in Hne as [H1 H2].
  apply Z.ltb_lt in H1, H2. auto.
Qed.

(** ** [compare_images] *)

Lemma compare_images_same_size (self : ScreenshotCompare) (fs : filesystem)
    (p1 p2 : string) (i1 i2 : RGBImage) (t : Q) (aa : bool) :
  decodes fs p1 i1 -> decodes fs p2 i2 -> size i1 = size i2 ->
  compare_images self p1 p2 t aa fs
  = (Return (Qle_bool (spec_difference_ratio i1 i2) t, spec_difference_ratio i1 i2), fs).
Proof.
  intros H1 H2 Hsz. unfold compare_images, bind at 1. rewrite H1.
  unfold bind at 1. rewrite H2. rewrite bool_decide_eq_true_2 by exact Hsz. simpl.
  destruct (decodes_nonempty _ _ _ H1) as [Hw Hh].
  unfold bind, truediv. destruct (decide _) as [Hz|Hz].
  { pose proof (Z.mul_pos_pos _ _ Hw Hh). exfalso. lia. }
  unfold ret. rewrite diff_pixels_total_gap by exact Hsz. reflexivity.
Qed.

Lemma compare_images_size_mismatch (self : ScreenshotCompare) (fs : filesystem)
    (p1 p2 : string) (i1 i2 : RGBImage) (t : Q) (aa : bool) :
  decodes fs p1 i1 -> decodes fs p2 i2 -> size i1 <> size i2 ->
  compare_images self p1 p2 t aa fs = (Return (false, 1%Q), fs).
Proof.
  intros H1 H2 Hsz. unfold compare_images, bind at 1. rewrite H1.
  unfold bind at 1. rewrite H2. rewrite bool_decide_eq_false_2 by exact Hsz.
  reflexivity.
Qed.

(** [compare_images] only reads. *)
Lemma compare_images_state (self : ScreenshotCompare) (fs fs' : filesystem)
    (p1 p2 : string) (t : Q) (aa : bool) (o : outcome (bool * Q)) :
  compare_images self p1 p2 t aa fs = (o, fs') -> fs' = fs.
Proof.
  unfold compare_images, bind at 1.
  destruct (open_RGB p1 fs) as [[i1|e1] fs1] eqn:E1;
    apply open_RGB_state in E1 as ->; [|intros H; inversion H; reflexivity].
  unfold bind at 1.
  destruct (open_RGB p2 fs) as [[i2|e2] fs2] eqn:E2;
    apply open_RGB_state in E2 as ->; [|intros H; inversion H; reflexivity].
  destruct (negb _); [intros H; inversion H; reflexivity|].
  unfold bind, truediv. destruct (decide _); intros H; inversion H; reflexivity.
Qed.

Lemma total_gap_self (a : RGBImage) : total_gap a a = 0.
Proof.
  unfold total_gap.
  rewrite (sigma_ext _ _ (fun _ => 0)); [rewrite sigma_const; lia|].
  intros y _. rewrite (sigma_ext _ _ (fun _ => 0)); [rewrite sigma_const; lia|].
  intros x _. unfold pixel_gap. rewrite !Z.sub_diag. reflexivity.
Qed.

Lemma total_gap_white_black (a b : RGBImage) :
  (forall x y, 0 <= x < (size a).1 -> 0 <= y < (size a).2 ->
     getpixel a x y = white /\ getpixel b x y = black) ->
  total_gap a b = Z.of_nat (Z.to_nat (size a).2) * (Z.of_nat (Z.to_nat (size a).1) * 765).
Proof.
  intros Hpx. unfold total_gap.
  rewrite (sigma_ext _ _ (fun _ => Z.of_nat (Z.to_nat (size a).1) * 765));
    [apply sigma_const|].
  intros y Hy. rewrite (sigma_ext _ _ (fun _ => 765)); [apply sigma_const|].
  intros x Hx. destruct (Hpx x y) as [-> ->]; [lia|lia|reflexivity].
Qed.

Lemma ratio_zero (d : Z) : round_double (inject_Z 0 / inject_Z d) = 0%Q.
Proof. apply round_double_zero. unfold Qdiv. apply Qmult_0_l. Qed.

Lemma ratio_one (d : Z) : d <> 0 -> round_double (inject_Z d / inject_Z d) = 1%Q.
Proof.
  intros Hd. apply round_double_one.
  unfold Qdiv. apply Qmult_inv_r. unfold Qeq. simpl. lia.
Qed.

(** C1: for decodable pictures of equal pixel dimensions, [compare_images]
    returns as [difference_ratio] the sum over all pixels of the absolute
    per-channel RGB differences divided by [width * height * 3 * 255], as
    the float that division gives (the binary64 value nearest to the
    quotient), and [is_similar] is true exactly when the returned ratio is
    at most the threshold; a solid white against a solid black 100x100
    picture gives ratio 1. *)
Theorem compare_images_difference_ratio :
  (forall (self : ScreenshotCompare) (fs : filesystem) (p1 p2 : string)
          (i1 i2 : RGBImage) (t : Q) (aa : bool),
      decodes fs p1 i1 -> decodes fs p2 i2 -> size i1 = size i2 ->
      exists (is_similar : bool) (r : Q),
        compare_images self p1 p2 t aa fs = (Return (is_similar, r), fs)
        /\ r = round_double (inject_Z (total_gap i1 i2)
                              / inject_Z ((size i1).1 * (size i1).2 * 3 * 255))
        /\ (is_similar = true <-> (r <= t)%Q))
  /\ (forall (self : ScreenshotCompare) (fs : filesystem) (p1 p2 : string)
             (i1 i2 : RGBImage) (t : Q) (aa : bool),
      decodes fs p1 i1 -> decodes fs p2 i2 ->
      size i1 = (100, 100) -> size i2 = (100, 100) ->
      (forall x y, 0 <= x < 100 -> 0 <= y < 100 ->
         getpixel i1 x y = white /\ getpixel i2 x y = black) ->
      exists is_similar : bool,
        compare_images self p1 p2 t aa fs = (Return (is_similar, 1%Q), fs)
        /\ ((t < 1)%Q -> is_similar = false)).
Proof.
  split.
  - intros self fs p1 p2 i1 i2 t aa H1 H2 Hsz.
    exists (Qle_bool (spec_difference_ratio i1 i2) t), (spec_difference_ratio i1 i2).
    split; [apply compare_images_same_size; assumption|].
    split; [reflexivity|apply Qle_bool_iff].
  - intros self fs p1 p2 i1 i2 t aa H1 H2 Hs1 Hs2 Hpx.
    exists (Qle_bool 1 t).
    assert (Hr : spec_difference_ratio i1 i2 = 1%Q).
    { unfold spec_difference_ratio. rewrite total_gap_white_black.
      - rewrite Hs1. reflexivity.
      - rewrite Hs1. exact Hpx. }
    rewrite (compare_images_same_size self fs p1 p2 i1 i2) by congruence.
    rewrite Hr. split; [reflexivity|].
    intros Hlt. destruct (Qle_bool 1 t) eqn:E; [|reflexivity].
    apply Qle_bool_iff in E. exfalso. exact (Qlt_not_le _ _ Hlt E).
Qed.

(** C2: for decodable pictures whose pixel dimensions differ,
    [compare_images] returns [(False, 1.0)] whatever the content, the
    threshold and the flag, and leaves the file system as it was. *)
Theorem compare_images_dimension_mismatch (self : ScreenshotCompare)
    (fs : filesystem) (p1 p2 : string) (i1 i2 : RGBImage) (t : Q) (aa : bool) :
  decodes fs p1 i1 -> decodes fs p2 i2 -> size i1 <> size i2 ->
  compare_images self p1 p2 t aa fs = (Return (false, 1%Q), fs).
Proof. apply compare_images_size_mismatch. Qed.

(** C9: comparing a decodable picture with itself, under any threshold that
    is not negative, returns [(True, 0.0)]. *)
Theorem compare_images_identity (self : ScreenshotCompare) (fs : filesystem)
    (p : string) (X : RGBImage) (t : Q) (aa : bool) :
  decodes fs p X -> (0 <= t)%Q ->
  compare_images self p p t aa fs = (Return (true, 0%Q), fs).
Proof.
  intros HX Ht.
  rewrite (compare_images_same_size self fs p p X X) by auto.
  unfold spec_difference_ratio. rewrite total_gap_self, ratio_zero.
  apply Qle_bool_iff in Ht. rewrite Ht. reflexivity.
Qed.

(** C10: two calls of [compare_images] that differ only in
    [ignore_antialiasing] return the same result and the same file system. *)
Theorem compare_images_ignores_antialiasing_flag (self : ScreenshotCompare)
    (fs : filesystem) (p1 p2 : string) (t : Q) (aa aa' : bool) :
  compare_images self p1 p2 t aa fs = compare_images self p1 p2 t aa' fs.
Proof. reflexivity. Qed.

Lemma shots_white : decodes shots "white.png" (solid (100, 100) white).
Proof. reflexivity. Qed.

Lemma shots_black : decodes shots "black.png" (solid (100, 100) black).
Proof. reflexivity. Qed.

Lemma shots_shot : decodes shots "shot.png" red_blue.
Proof. reflexivity. Qed.

Lemma shots_other : decodes shots "other.png" blue_red.
Proof. reflexivity. Qed.

Lemma compare_images_difference_ratio_witness :
  (exists (is_similar : bool) (r : Q),
     compare_images sc "shot.png" "other.png"
       (6004799503160661 # 9007199254740992) true shots
     = (Return (is_similar, r), shots)
     /\ r = round_double (inject_Z (total_gap red_blue blue_red)
                          / inject_Z ((size red_blue).1 * (size red_blue).2 * 3 * 255))
     /\ (is_similar = true <-> (r <= 6004799503160661 # 9007199254740992)%Q))
  /\ (exists is_similar : bool,
        compare_images sc "white.png" "black.png" (1 # 10) true shots
        = (Return (is_similar, 1%Q), shots)
        /\ ((1 # 10 < 1)%Q -> is_similar = false)).
Proof.
  split.
  - apply (proj1 compare_images_difference_ratio sc shots "shot.png" "other.png"
             red_blue blue_red (6004799503160661 # 9007199254740992) true).
    + reflexivity.
    + reflexivity.
    + reflexivity.
  - apply (proj2 compare_images_difference_ratio sc shots "white.png" "black.png"
             (solid (100, 100) white) (solid (100, 100) black) (1 # 10) true).
    + reflexivity.
    + reflexivity.
    + reflexivity.
    + reflexivity.
    + intros x y _ _. split; reflexivity.
Defined.

Lemma compare_images_dimension_mismatch_witness :
  compare_images sc "white.png" "shot.png" 1 true shots = (Return (false, 1%Q), shots).
Proof.
  apply (compare_images_dimension_mismatch sc shots "white.png" "shot.png"
           (solid (100, 100) white) red_blue 1 true).
  - reflexivity.
  - reflexivity.
  - discriminate.
Defined.

Lemma compare_images_identity_witness :
  compare_images sc "shot.png" "shot.png" 0 false shots = (Return (true, 0%Q), shots).
Proof.
  apply (compare_images_identity sc shots "shot.png" red_blue 0 false).
  - reflexivity.
  - discriminate.
Defined.

(** ** Paths *)

Lemma append_cons (c : ascii) (a b : string) : String c a +:+ b = String c (a +:+ b).
Proof. reflexivity. Qed.

Lemma no_slash_append (a b : string) : no_slash (a +:+ b) = no_slash a && no_slash b.
Proof.
  induction a as [|c a IH]; [reflexivity|]. rewrite append_cons. cbn [no_slash].
  rewrite IH. apply andb_assoc.
Qed.

Lemma last_component_no_slash (s : string) : no_slash s = true -> last_component s = s.
Proof.
  destruct s as [|c s]; [reflexivity|]. cbn [no_slash last_component].
  intros [Hc Hs]%andb_true_iff. apply negb_true_iff in Hc. rewrite Hc, Hs.
  reflexivity.
Qed.

Lemma no_slash_last_component (s : string) : no_slash (last_component s) = true.
Proof.
  induction s as [|c s IH]; [reflexivity|]. cbn [last_component].
  destruct (Ascii.eqb c "/") eqn:Ec; [exact IH|].
  destruct (no_slash s) eqn:Es; [|exact IH].
  cbn [no_slash]. rewrite Ec, Es. reflexivity.
Qed.

(** A suffix without slash extends the last component. *)
Lemma last_component_append (s suf : string) :
  no_slash suf = true -> last_component (s +:+ suf) = last_component s +:+ suf.
Proof.
  intros Hsuf. induction s as [|c s IH].
  - apply last_component_no_slash. exact Hsuf.
  - rewrite append_cons. cbn [last_component]. destruct (Ascii.eqb c "/"); [exact IH|].
    rewrite no_slash_append, Hsuf, andb_true_r.
    destruct (no_slash s); [reflexivity|exact IH].
Qed.

Lemma last_component_after_slash (a b : string) :
  last_component (a +:+ String "/" b) = last_component b.
Proof.
  induction a as [|c a IH]; [reflexivity|].
  rewrite append_cons. cbn [last_component]. destruct (Ascii.eqb c "/"); [exact IH|].
  rewrite no_slash_append. cbn [no_slash]. rewrite Ascii.eqb_refl.
  cbn [negb andb]. rewrite andb_false_r. exact IH.
Qed.

Lemma last_component_lstrip (s : string) :
  last_component (lstrip_slash s) = last_component s.
Proof.
  induction s as [|c s IH]; [reflexivity|]. cbn [lstrip_slash].
  destruct (Ascii.eqb c "/") eqn:Ec; [|reflexivity].
  rewrite IH. cbn [last_component]. rewrite Ec. reflexivity.
Qed.

Lemma split_slash_cases (s : string) :
  (no_slash s = true /\ split_slash s = [s])
  \/ (no_slash s = false /\ exists x y ys, split_slash s = x :: y :: ys).
Proof.
  induction s as [|c s IH]; [left; auto|]. cbn [no_slash split_slash].
  destruct (Ascii.eqb c "/") eqn:Ec.
  - right. split; [reflexivity|].
    destruct IH as [[_ ->]|[_ (x & y & ys & ->)]]; eauto.
  - destruct IH as [[-> ->]|[-> (x & y & ys & ->)]]; [left; auto|right; eauto].
Qed.

Lemma last_split_slash (s : string) :
  List.last (split_slash s) "" = last_component s.
Proof.
  induction s as [|c s IH]; [reflexivity|]. cbn [split_slash last_component].
  destruct (Ascii.eqb c "/") eqn:Ec.
  - destruct (split_slash_cases s) as [[_ H]|[_ (x & y & ys & H)]];
      rewrite H in IH |- *; exact IH.
  - destruct (split_slash_cases s) as [[Hs H]|[Hs (x & y & ys & H)]];
      rewrite Hs; rewrite H in IH |- *; [reflexivity|exact IH].
Qed.

Lemma split_slash_last (s : string) :
  exists init, split_slash s = (init ++ [last_component s])%list.
Proof.
  exists (removelast (split_slash s)). rewrite <- last_split_slash.
  apply app_removelast_last.
  destruct (split_slash_cases s) as [[_ ->]|[_ (x & y & ys & ->)]]; discriminate.
Qed.

Lemma splitroot_cases (s : string) :
  exists root rel, splitroot s = (root, rel)
    /\ (root = "" \/ root = "/" \/ root = "//")
    /\ last_component rel = last_component s.
Proof.
  unfold splitroot.
  destruct (String.length s - String.length (lstrip_slash s))%nat as [|[|[|n]]];
    eexists _, _; (split; [reflexivity|]); split; auto using last_component_lstrip.
Qed.

Lemma last_component_root (root s : string) :
  root = "" \/ root = "/" \/ root = "//" ->
  last_component (root +:+ s) = last_component s.
Proof. intros [-> | [-> | ->]]; reflexivity. Qed.

Lemma last_component_join (xs : list string) (x : string) :
  no_slash x = true -> last_component (join_slash (xs ++ [x])) = x.
Proof.
  intros Hx. induction xs as [|y ys IH].
  - apply last_component_no_slash. exact Hx.
  - cbn [app join_slash]. destruct (ys ++ [x])%list as [|z zs] eqn:E.
    + destruct ys; discriminate.
    + change (y +:+ "/" +:+ join_slash (z :: zs))
        with (y +:+ String "/" (join_slash (z :: zs))).
      rewrite last_component_after_slash. exact IH.
Qed.

Lemma Path_cases (s : string) :
  plain_part (last_component s) = true ->
  exists root init, Path s = mkPath root (init ++ [last_component s])
    /\ (root = "" \/ root = "/" \/ root = "//").
Proof.
  intros Hp. unfold Path.
  destruct (splitroot_cases s) as (root & rel & Hsr & Hroot & Hrel).
  rewrite Hsr. destruct (split_slash_last rel) as [init Hinit].
  rewrite Hinit, Hrel.
  exists root, (List.filter plain_part init). split; [|exact Hroot].
  rewrite List.filter_app. cbn [List.filter]. rewrite Hp. reflexivity.
Qed.

Lemma Path_root (s : string) :
  path_root (Path s) = "" \/ path_root (Path s) = "/" \/ path_root (Path s) = "//".
Proof.
  unfold Path. destruct (splitroot_cases s) as (root & rel & Hsr & Hroot & _).
  rewrite Hsr. exact Hroot.
Qed.

Lemma plain_part_long (s : string) : (2 <= String.length s)%nat -> plain_part s = true.
Proof.
  intros H. unfold plain_part. apply andb_true_iff.
  split; apply negb_true_iff, String.eqb_neq; intros ->; simpl in H; lia.
Qed.

Lemma length_append (a b : string) :
  String.length (a +:+ b) = (String.length a + String.length b)%nat.
Proof. induction a as [|c a IH]; [reflexivity|]. simpl. rewrite IH. reflexivity. Qed.

(** The file name of [Path(dir) / name] is that of [name]. *)
Lemma last_component_joinpath (dir name : string) :
  plain_part (last_component name) = true ->
  last_component (joinpath dir name) = last_component name.
Proof.
  intros Hp. destruct (Path_cases name Hp) as (root & init & HP & Hroot).
  assert (Hl : exists r parts,
             child (Path dir) name = mkPath r (parts ++ [last_component name])
             /\ (r = "" \/ r = "/" \/ r = "//")).
  { unfold child. rewrite HP. cbn [path_root path_parts].
    destruct (String.eqb root ""); [|eauto].
    exists (path_root (Path dir)), (path_parts (Path dir) ++ init)%list.
    rewrite <- app_assoc. split; [reflexivity|apply Path_root]. }
  destruct Hl as (r & parts & Hc & Hr).
  unfold joinpath, path_str. rewrite Hc. cbn [path_root path_parts].
  assert (Hlast : last_component (r +:+ join_slash (parts ++ [last_component name]))
                  = last_component name).
  { rewrite last_component_root by exact Hr.
    apply last_component_join, no_slash_last_component. }
  destruct (String.eqb _ "") eqn:E; [|exact Hlast].
  apply String.eqb_eq in E. rewrite E in Hlast. rewrite <- Hlast in Hp.
  discriminate.
Qed.

Lemma last_component_joinpath_suffix (dir name suf : string) :
  no_slash suf = true -> (2 <= String.length suf)%nat ->
  last_component (joinpath dir (name +:+ suf)) = last_component name +:+ suf.
Proof.
  intros Hs Hl. rewrite last_component_joinpath; rewrite last_component_append by exact Hs;
    [reflexivity|].
  apply plain_part_long. rewrite length_append. lia.
Qed.

Lemma ext_from_diff_png (seen : bool) (l : string) :
  ext_from seen (l +:+ "_diff.png") = ".png".
Proof.
  revert seen. induction l as [|c l IH]; intros seen.
  - destruct seen; reflexivity.
  - rewrite append_cons. cbn [ext_from]. rewrite IH. reflexivity.
Qed.

(** Pillow writes the artifact of every name as a PNG file. *)
Lemma png_path_diff (dir name : string) :
  png_path (joinpath dir (name +:+ "_diff.png")).
Proof.
  unfold png_path, extension.
  rewrite last_component_joinpath_suffix by (reflexivity || (simpl; lia)).
  rewrite ext_from_diff_png. reflexivity.
Qed.

Lemma last_component_temp (dir name : string) :
  no_slash name = true -> (2 <= String.length name)%nat ->
  last_component (joinpath dir name) = name.
Proof.
  intros Hs Hl. rewrite last_component_joinpath; rewrite last_component_no_slash by exact Hs;
    [reflexivity|apply plain_part_long; exact Hl].
Qed.

Lemma png_path_temp1 (dir : string) : png_path (joinpath dir "temp_region1.png").
Proof.
  unfold png_path, extension.
  rewrite last_component_temp by (reflexivity || (simpl; lia)). reflexivity.
Qed.

Lemma png_path_temp2 (dir : string) : png_path (joinpath dir "temp_region2.png").
Proof.
  unfold png_path, extension.
  rewrite last_component_temp by (reflexivity || (simpl; lia)). reflexivity.
Qed.

Lemma append_inj_l (l a b : string) : l +:+ a = l +:+ b -> a = b.
Proof.
  induction l as [|c l IH]; [auto|]. rewrite !append_cons. intros H.
  apply IH. congruence.
Qed.

Lemma append_assoc (a b c : string) : (a +:+ b) +:+ c = a +:+ (b +:+ c).
Proof.
  induction a as [|x a IH]; [reflexivity|]. rewrite !append_cons, IH. reflexivity.
Qed.

Lemma append_nonempty (a b : string) : b <> "" -> a +:+ b <> "".
Proof.
  intros Hb H. apply (f_equal String.length) in H. rewrite length_append in H.
  destruct b; [congruence|simpl in H; lia].
Qed.

Lemma join_slash_snoc (xs : list string) (y : string) :
  xs <> [] -> join_slash (xs ++ [y]) = join_slash xs +:+ "/" +:+ y.
Proof.
  induction xs as [|x xs IH]; [congruence|]. intros _.
  destruct xs as [|x' xs]; [reflexivity|].
  change (join_slash ((x :: x' :: xs) ++ [y]))
    with (x +:+ "/" +:+ join_slash ((x' :: xs) ++ [y])).
  rewrite IH by discriminate.
  change (join_slash (x :: x' :: xs)) with (x +:+ "/" +:+ join_slash (x' :: xs)).
  rewrite !append_assoc. reflexivity.
Qed.

Lemma Path_entry (name : string) :
  no_slash name = true -> plain_part name = true -> Path name = mkPath "" [name].
Proof.
  intros Hs Hp. unfold Path, splitroot.
  assert (Hl : lstrip_slash name = name).
  { destruct name as [|c name]; [reflexivity|]. cbn [no_slash] in Hs.
    apply andb_true_iff in Hs as [Hc _]. apply negb_true_iff in Hc.
    cbn [lstrip_slash]. rewrite Hc. reflexivity. }
  rewrite Hl, Nat.sub_diag.
  destruct (split_slash_cases name) as [[_ Hsplit]|[Hf _]]; [|congruence].
  rewrite Hsplit. cbn [List.filter]. rewrite Hp. reflexivity.
Qed.

Lemma path_str_nonempty (p : PurePath) (x : string) (xs : list string) :
  path_parts p = x :: xs -> plain_part x = true ->
  path_str p = path_root p +:+ join_slash (path_parts p).
Proof.
  intros Hparts Hx. unfold path_str. rewrite Hparts.
  destruct (String.eqb _ "") eqn:E; [|reflexivity].
  apply String.eqb_eq in E. exfalso. revert E. apply append_nonempty.
  destruct x as [|c x]; [discriminate|]. destruct xs; discriminate.
Qed.

(** The path of an entry [name] of [dir]. *)
Lemma joinpath_entry (dir name : string) :
  no_slash name = true -> plain_part name = true ->
  joinpath dir name = child_prefix dir +:+ name.
Proof.
  intros Hs Hp. unfold joinpath, child, child_prefix.
  rewrite (Path_entry name Hs Hp). cbn [path_root path_parts].
  change (String.eqb "" "") with true. cbv iota.
  assert (Hname : name <> "") by (intros ->; discriminate).
  destruct (path_parts (Path dir)) as [|x xs] eqn:Hparts.
  - unfold path_str. cbn [path_root path_parts app join_slash].
    destruct (String.eqb _ "") eqn:E; [|reflexivity].
    apply String.eqb_eq in E. exfalso. revert E. apply append_nonempty, Hname.
  - assert (Hx : plain_part x = true).
    { assert (Hin : In x (path_parts (Path dir))) by (rewrite Hparts; left; reflexivity).
      unfold Path in Hin. destruct (splitroot dir) as [root rel].
      cbn [path_parts] in Hin. apply List.filter_In in Hin as [_ Hin]. exact Hin. }
    rewrite (path_str_nonempty (Path dir) x xs Hparts Hx), Hparts.
    unfold path_str. cbn [path_root path_parts].
    rewrite join_slash_snoc by discriminate.
    destruct (String.eqb _ "") eqn:E.
    + apply String.eqb_eq in E. exfalso. revert E.
      rewrite <- append_assoc. apply append_nonempty.
      rewrite append_cons. discriminate.
    + rewrite !append_assoc. reflexivity.
Qed.

(** The artifact of a name is never the baseline of that name. *)
Lemma diff_path_not_baseline_path (self : ScreenshotCompare) (name : string) :
  joinpath (diff_dir self) (name +:+ "_diff.png")
  <> joinpath (baseline_dir self) (name +:+ ".png").
Proof.
  intros H. apply (f_equal last_component) in H.
  rewrite !last_component_joinpath_suffix in H by (reflexivity || (simpl; lia)).
  apply append_inj_l in H. discriminate.
Qed.

Lemma temp_paths_distinct (dir : string) :
  joinpath dir "temp_region1.png" <> joinpath dir "temp_region2.png".
Proof.
  intros H. apply (f_equal last_component) in H.
  rewrite !last_component_temp in H by (reflexivity || (simpl; lia)).
  discriminate.
Qed.

(** ** Saving, and the diff artifact *)

Lemma Image_save_frame (img : Image) (path : string) (fs fs' : filesystem)
    (o : outcome unit) :
  Image_save img path fs = (o, fs') -> forall q, q <> path -> fs' !! q = fs !! q.
Proof.
  unfold Image_save. intros H q Hq.
  destruct (String.eqb (extension path) ""); [inversion H; reflexivity|].
  destruct (negb _); [inversion H; reflexivity|].
  destruct (fs !! path) as [[raw| |]|];
    try (destruct (nonempty (Image_size img)); inversion H; subst;
         [apply lookup_insert_ne; congruence|reflexivity]).
  inversion H. reflexivity.
Qed.

Lemma Image_save_ok (img : Image) (path : string) (fs : filesystem) :
  png_path path ->
  fs !! path <> Some Directory -> nonempty (Image_size img) = true ->
  Image_save img path fs = (Return tt, <[path := ImageFile img]> fs).
Proof.
  intros Hp Hd Hne. unfold Image_save. rewrite Hp, Hne. cbn [String.eqb negb].
  change (String.eqb ".png" "") with false.
  change (String.eqb ".png" ".png") with true. cbn [negb].
  destruct (fs !! path) as [[raw| |]|]; try reflexivity. congruence.
Qed.

Section Properties.

Variable resample : RGBImage -> Z * Z -> Z -> Z -> rgb.

Lemma size_comparison_of (b c : RGBImage) :
  size (comparison_of resample b c) = ((size b).1 * 3, (size b).2).
Proof. reflexivity. Qed.

Lemma create_diff_image_ok (self : ScreenshotCompare) (fs : filesystem)
    (bpath cpath out : string) (b c : RGBImage) :
  decodes fs bpath b -> decodes fs cpath c ->
  png_path out -> fs !! out <> Some Directory ->
  create_diff_image resample self bpath cpath out fs
  = (Return tt, <[out := ImageFile (ModeRGB (comparison_of resample b c))]> fs).
Proof.
  intros Hb Hc Hpng Hout. unfold create_diff_image, bind at 1. rewrite Hb.
  unfold bind. rewrite Hc. apply Image_save_ok; [exact Hpng|exact Hout|].
  destruct (decodes_nonempty _ _ _ Hb) as [Hw Hh].
  simpl. unfold nonempty. simpl.
  apply andb_true_iff. split; apply Z.ltb_lt; lia.
Qed.

Lemma create_diff_image_frame (self : ScreenshotCompare) (fs fs' : filesystem)
    (bpath cpath out : string) (o : outcome unit) :
  create_diff_image resample self bpath cpath out fs = (o, fs') ->
  forall q, q <> out -> fs' !! q = fs !! q.
Proof.
  unfold create_diff_image, bind at 1.
  destruct (open_RGB bpath fs) as [[b|e] fs1] eqn:E1;
    apply open_RGB_state in E1 as ->; [|intros H; inversion H; reflexivity].
  unfold bind.
  destruct (open_RGB cpath fs) as [[c|e] fs2] eqn:E2;
    apply open_RGB_state in E2 as ->; [|intros H; inversion H; reflexivity].
  apply Image_save_frame.
Qed.

Lemma compare_images_Return_inv (self : ScreenshotCompare) (fs fs' : filesystem)
    (p1 p2 : string) (t : Q) (aa : bool) (r : bool * Q) :
  compare_images self p1 p2 t aa fs = (Return r, fs') ->
  exists i1 i2, decodes fs p1 i1 /\ decodes fs p2 i2.
Proof.
  unfold compare_images, bind at 1.
  destruct (open_RGB p1 fs) as [[i1|e1] fs1] eqn:E1; [|discriminate].
  pose proof (open_RGB_state _ _ _ _ E1) as ->.
  unfold bind at 1.
  destruct (open_RGB p2 fs) as [[i2|e2] fs2] eqn:E2; [|discriminate].
  pose proof (open_RGB_state _ _ _ _ E2) as ->.
  intros _. exists i1, i2. split; assumption.
Qed.

Lemma compare_images_same_picture (self : ScreenshotCompare) (fs : filesystem)
    (p1 p2 : string) (X : RGBImage) (t : Q) (aa : bool) :
  decodes fs p1 X -> decodes fs p2 X -> (0 <= t)%Q ->
  compare_images self p1 p2 t aa fs = (Return (true, 0%Q), fs).
Proof.
  intros H1 H2 Ht.
  rewrite (compare_images_same_size self fs p1 p2 X X) by auto.
  unfold spec_difference_ratio. rewrite total_gap_self, ratio_zero.
  apply Qle_bool_iff in Ht. rewrite Ht. reflexivity.
Qed.

(** The branch of [compare_with_baseline] taken when the baseline exists. *)
Lemma compare_with_baseline_existing (self : ScreenshotCompare) (fs : filesystem)
    (screenshot_path name : string) (t : Q) (save_diff : bool) :
  is_Some (fs !! joinpath (baseline_dir self) (name +:+ ".png")) ->
  compare_with_baseline resample self screenshot_path name t save_diff fs
  = (r <- compare_images self (joinpath (baseline_dir self) (name +:+ ".png"))
            screenshot_path t true ;;
     let '(is_similar, difference) := r in
     if negb is_similar && save_diff then
       create_diff_image resample self
         (joinpath (baseline_dir self) (name +:+ ".png")) screenshot_path
         (joinpath (diff_dir self) (name +:+ "_diff.png")) ;;;
       ret (is_similar, difference,
            Some (joinpath (diff_dir self) (name +:+ "_diff.png")))
     else ret (is_similar, difference, None)) fs.
Proof.
  intros Hex. unfold compare_with_baseline, bind at 1, exists_.
  rewrite bool_decide_eq_true_2 by exact Hex. reflexivity.
Qed.

(** With an existing baseline, [compare_with_baseline] can only touch the
    diff artifact. *)
Lemma compare_with_baseline_frame (self : ScreenshotCompare) (fs fs' : filesystem)
    (screenshot_path name : string) (t : Q) (save_diff : bool)
    (o : outcome (bool * Q * option string)) :
  is_Some (fs !! joinpath (baseline_dir self) (name +:+ ".png")) ->
  compare_with_baseline resample self screenshot_path name t save_diff fs = (o, fs') ->
  forall q, q <> joinpath (diff_dir self) (name +:+ "_diff.png") ->
            fs' !! q = fs !! q.
Proof.
  intros Hex. rewrite compare_with_baseline_existing by exact Hex.
  unfold bind at 1.
  destruct (compare_images _ _ _ _ _ fs) as [[[sim d]|e] fs1] eqn:E;
    apply compare_images_state in E as ->;
    [|intros H; inversion H; reflexivity].
  destruct (negb sim && save_diff); [|intros H; inversion H; reflexivity].
  unfold bind.
  destruct (create_diff_image _ _ _ _ _ fs) as [[[]|e] fs2] eqn:E2;
    intros H q Hq; inversion H; subst;
    eapply create_diff_image_frame; eassumption.
Qed.

(** C3: when no baseline file exists for [name] and the baseline path of
    [name] is one Pillow can write (a PNG file name, in a directory that
    exists), [compare_with_baseline] stores the candidate as the baseline of
    [name], touches nothing else and returns [(True, 0.0, None)]; calling it
    again with the same candidate and name (any threshold that is not
    negative) returns [(True, 0.0, None)] as well. *)
Theorem compare_with_baseline_bootstrap (self : ScreenshotCompare)
    (fs : filesystem) (candidate name : string) (X : RGBImage)
    (threshold : Q) (save_diff : bool) :
  fs !! joinpath (baseline_dir self) (name +:+ ".png") = None ->
  png_path (joinpath (baseline_dir self) (name +:+ ".png")) ->
  parent_ready self fs (joinpath (baseline_dir self) (name +:+ ".png")) ->
  decodes fs candidate X ->
  exists fs1 : filesystem,
    compare_with_baseline resample self candidate name threshold save_diff fs
    = (Return (true, 0%Q, None), fs1)
    /\ fs1 !! joinpath (baseline_dir self) (name +:+ ".png") = fs !! candidate
    /\ (forall q, q <> joinpath (baseline_dir self) (name +:+ ".png") ->
                  fs1 !! q = fs !! q)
    /\ (forall (threshold' : Q) (save_diff' : bool), (0 <= threshold')%Q ->
          compare_with_baseline resample self candidate name threshold' save_diff' fs1
          = (Return (true, 0%Q, None), fs1)).
Proof.
  intros Hno Hpng _ HX.
  pose proof (decodes_small _ _ _ HX) as Hsmall.
  destruct (decodes_inv _ _ _ HX) as (raw & Hraw & -> & Hne).
  rewrite size_convert_RGB in Hsmall.
  set (bp := joinpath (baseline_dir self) (name +:+ ".png")) in *.
  assert (Hcb : candidate <> bp) by (intros ->; congruence).
  exists (<[bp := ImageFile raw]> fs).
  split; [|split; [|split]].
  - unfold compare_with_baseline, bind at 1, exists_. fold bp. rewrite Hno.
    rewrite bool_decide_eq_false_2 by (intros [? ?]; discriminate). simpl.
    unfold bind at 1, save_baseline, bind at 1, Image_open.
    rewrite Hraw, Hne, Hsmall.
    unfold bind at 1. fold bp. rewrite Image_save_ok by (try rewrite Hno; auto).
    reflexivity.
  - rewrite lookup_insert_eq. symmetry. exact Hraw.
  - intros q Hq. apply lookup_insert_ne. congruence.
  - intros t' sd' Ht'.
    rewrite compare_with_baseline_existing
      by (fold bp; rewrite lookup_insert_eq; eauto).
    fold bp. unfold bind at 1.
    rewrite (compare_images_same_picture self _ bp candidate (convert_RGB raw)).
    + reflexivity.
    + apply decodes_intro; [apply lookup_insert_eq|exact Hne|exact Hsmall].
    + apply decodes_intro; [|exact Hne|exact Hsmall].
      rewrite lookup_insert_ne by congruence. exact Hraw.
    + exact Ht'.
Qed.

(** C4, as the code has it: when [name] has a baseline, a call of
    [compare_with_baseline], whatever it returns or raises and so also when
    the comparison fails, leaves the stored baseline of [name] as it was;
    the only file the call can write is the diff artifact of [name], so the
    baseline of any other name is kept as well unless its path is that of
    the artifact; [compare_images] writes nothing. *)
Theorem failing_comparison_keeps_baseline :
  (forall (self : ScreenshotCompare) (fs fs' : filesystem)
          (candidate name : string) (threshold : Q) (save_diff : bool)
          (o : outcome (bool * Q * option string)),
      is_Some (fs !! joinpath (baseline_dir self) (name +:+ ".png")) ->
      compare_with_baseline resample self candidate name threshold save_diff fs
      = (o, fs') ->
      fs' !! joinpath (baseline_dir self) (name +:+ ".png")
      = fs !! joinpath (baseline_dir self) (name +:+ ".png")
      /\ (forall q, q <> joinpath (diff_dir self) (name +:+ "_diff.png") ->
                    fs' !! q = fs !! q)
      /\ (forall other : string,
            joinpath (baseline_dir self) (other +:+ ".png")
            <> joinpath (diff_dir self) (name +:+ "_diff.png") ->
            fs' !! joinpath (baseline_dir self) (other +:+ ".png")
            = fs !! joinpath (baseline_dir self) (other +:+ ".png")))
  /\ (forall (self : ScreenshotCompare) (fs fs' : filesystem) (p1 p2 : string)
             (threshold : Q) (aa : bool) (o : outcome (bool * Q)),
      compare_images self p1 p2 threshold aa fs = (o, fs') -> fs' = fs).
Proof.
  split.
  - intros self fs fs' candidate name t sd o Hex Hrun.
    pose proof (compare_with_baseline_frame _ _ _ _ _ _ _ _ Hex Hrun) as Hframe.
    split; [|split; [exact Hframe|]].
    + apply Hframe. intros Heq. symmetry in Heq.
      exact (diff_path_not_baseline_path self name Heq).
    + intros other Hother. apply Hframe. exact Hother.
  - intros self fs fs' p1 p2 t aa o. apply compare_images_state.
Qed.

(** C7: when [name] has a baseline that decodes, as the candidate does, and
    the diff artifact path is writable, the comparison returns some
    [(is_similar, ratio)] and [compare_with_baseline] returns
    [(True, ratio, None)] when similar, [(False, ratio, p)] with [p] the
    path [str(Path(diff_dir) / (name + "_diff.png"))], at which the diff
    artifact now is, when not similar and [save_diff] is set, and
    [(False, ratio, None)] when not similar and [save_diff] is unset.  For a
    name without slash that path is the name followed by ["_diff.png"], after
    what pathlib puts before the entries of [diff_dir]. *)
Theorem compare_with_baseline_result (self : ScreenshotCompare)
    (fs : filesystem) (candidate name : string) (b c : RGBImage)
    (threshold : Q) (save_diff : bool) :
  decodes fs (joinpath (baseline_dir self) (name +:+ ".png")) b ->
  decodes fs candidate c ->
  fs !! joinpath (diff_dir self) (name +:+ "_diff.png") <> Some Directory ->
  parent_ready self fs (joinpath (diff_dir self) (name +:+ "_diff.png")) ->
  exists (is_similar : bool) (ratio : Q),
    compare_images self (joinpath (baseline_dir self) (name +:+ ".png"))
      candidate threshold true fs = (Return (is_similar, ratio), fs)
    /\ (is_similar = true ->
        compare_with_baseline resample self candidate name threshold save_diff fs
        = (Return (true, ratio, None), fs))
    /\ (is_similar = false -> save_diff = true ->
        compare_with_baseline resample self candidate name threshold save_diff fs
        = (Return (false, ratio,
                   Some (joinpath (diff_dir self) (name +:+ "_diff.png"))),
           <[joinpath (diff_dir self) (name +:+ "_diff.png")
               := ImageFile (ModeRGB (comparison_of resample b c))]> fs))
    /\ (is_similar = false -> save_diff = false ->
        compare_with_baseline resample self candidate name threshold save_diff fs
        = (Return (false, ratio, None), fs))
    /\ (no_slash name = true ->
        joinpath (diff_dir self) (name +:+ "_diff.png")
        = child_prefix (diff_dir self) +:+ name +:+ "_diff.png").
Proof.
  intros Hb Hc Hout _.
  set (bp := joinpath (baseline_dir self) (name +:+ ".png")) in *.
  assert (Hex : is_Some (fs !! bp)).
  { destruct (decodes_inv _ _ _ Hb) as (raw & -> & _). eauto. }
  assert (Hcmp : exists sim ratio,
             compare_images self bp candidate threshold true fs
             = (Return (sim, ratio), fs)).
  { destruct (decide (size b = size c)) as [Hsz|Hsz].
    - eexists _, _. apply (compare_images_same_size self fs bp candidate b c);
        assumption.
    - eexists _, _. apply (compare_images_size_mismatch self fs bp candidate b c);
        assumption. }
  destruct Hcmp as (sim & ratio & Hcmp). exists sim, ratio.
  split; [exact Hcmp|].
  rewrite (compare_with_baseline_existing self fs candidate name threshold save_diff Hex).
  fold bp. rewrite (bind_Return _ _ _ _ _ Hcmp).
  split; [|split; [|split]].
  - intros ->. reflexivity.
  - intros -> ->. simpl.
    erewrite bind_Return
      by (apply (create_diff_image_ok self fs bp candidate _ b c);
          auto using png_path_diff).
    reflexivity.
  - intros -> ->. reflexivity.
  - intros Hname. apply joinpath_entry.
    + rewrite no_slash_append, Hname. reflexivity.
    + apply plain_part_long. rewrite length_append. simpl. lia.
Qed.

Lemma in_box_true (x0 y0 w h x y : Z) :
  x0 <= x < x0 + w -> y0 <= y < y0 + h -> in_box x0 y0 w h x y = true.
Proof.
  intros Hx Hy. unfold in_box.
  rewrite !andb_true_iff, !Z.leb_le, !Z.ltb_lt. lia.
Qed.

Lemma in_box_false (x0 y0 w h x y : Z) :
  x < x0 \/ x0 + w <= x -> in_box x0 y0 w h x y = false.
Proof.
  intros Hx. unfold in_box. apply not_true_iff_false.
  rewrite !andb_true_iff, !Z.leb_le, !Z.ltb_lt. lia.
Qed.

Lemma clip8_times_ten (v : Z) : 0 <= v -> clip8 (v * 10) = Z.min 255 (10 * v).
Proof.
  intros Hv. unfold clip8.
  destruct (Z.leb_spec (v * 10) 0); [lia|].
  destruct (Z.ltb_spec (v * 10) 256); lia.
Qed.

Lemma point_times_ten_difference (p q : rgb) :
  (let '(r, g, b) := channel_difference p q in
   (clip8 (r * 10), clip8 (g * 10), clip8 (b * 10)))
  = spec_amplified_gap p q.
Proof.
  destruct p as [[r1 g1] b1], q as [[r2 g2] b2]. unfold spec_amplified_gap. simpl.
  rewrite !clip8_times_ten by apply Z.abs_nonneg. reflexivity.
Qed.

(** C8: for decodable inputs and an output path at which Pillow can write
    a PNG file (the extension is that of a PNG file, the directory exists
    and the path is not a directory), [create_diff_image] writes there, as a
    PNG, a composite whose width is three times the
    baseline's width and whose height is the baseline's height; from left to
    right it holds the baseline, the candidate (resized to the baseline's
    size when the sizes differ) and their per-channel absolute difference
    multiplied by ten and capped at 255. *)
Theorem create_diff_image_layout (self : ScreenshotCompare) (fs : filesystem)
    (baseline_path current_path output_path : string) (b c : RGBImage) :
  decodes fs baseline_path b -> decodes fs current_path c ->
  writable_png self fs output_path ->
  exists composite panel : RGBImage,
    create_diff_image resample self baseline_path current_path output_path fs
    = (Return tt, <[output_path := ImageFile (ModeRGB composite)]> fs)
    /\ size composite = (3 * (size b).1, (size b).2)
    /\ size panel = size b
    /\ (size c = size b -> panel = c)
    /\ (size c <> size b -> panel = resize resample c (size b))
    /\ forall x y, 0 <= x < (size b).1 -> 0 <= y < (size b).2 ->
         getpixel composite x y = getpixel b x y
         /\ getpixel composite ((size b).1 + x) y = getpixel panel x y
         /\ getpixel composite (2 * (size b).1 + x) y
            = spec_amplified_gap (getpixel b x y) (getpixel panel x y).
Proof.
  intros Hb Hc (Hpng & _ & Hout).
  exists (comparison_of resample b c),
         (if negb (bool_decide (size b = size c))
          then resize resample c (size b) else c).
  split; [apply create_diff_image_ok; assumption|].
  split; [rewrite size_comparison_of; f_equal; lia|].
  assert (Hpanel : size (if negb (bool_decide (size b = size c))
                         then resize resample c (size b) else c) = size b).
  { case_bool_decide; simpl; congruence. }
  split; [exact Hpanel|].
  split; [intros Hsz; rewrite bool_decide_eq_true_2 by congruence; reflexivity|].
  split; [intros Hsz; rewrite bool_decide_eq_false_2 by congruence; reflexivity|].
  intros x y Hx Hy. unfold comparison_of.
  set (panel := if negb (bool_decide (size b = size c))
                then resize resample c (size b) else c) in *.
  unfold paste, point, ImageChops_difference, Image_new. simpl.
  rewrite Hpanel, !Z.min_id.
  split; [|split].
  - rewrite !in_box_false by lia. rewrite in_box_true by lia.
    rewrite !Z.sub_0_r. reflexivity.
  - rewrite in_box_false by lia. rewrite in_box_true by lia.
    replace ((size b).1 + x - (size b).1) with x by lia.
    rewrite Z.sub_0_r. reflexivity.
  - rewrite in_box_true by lia.
    replace (2 * (size b).1 + x - (size b).1 * 2) with x by lia.
    rewrite Z.sub_0_r. apply point_times_ten_difference.
Qed.

(** ** [compare_regions] *)

Lemma bind_Return_inv {A B} (m : M A) (k : A -> M B) (fs fs' : filesystem) (b : B) :
  bind m k fs = (Return b, fs') ->
  exists a fs1, m fs = (Return a, fs1) /\ k a fs1 = (Return b, fs').
Proof.
  unfold bind. destruct (m fs) as [[a|e] fs1]; [eauto|discriminate].
Qed.

Lemma unlink_Return_inv (path : string) (fs fs' : filesystem) (u : unit) :
  unlink path fs = (Return u, fs') -> fs' = delete path fs.
Proof.
  unfold unlink. destruct (fs !! path) as [[raw| |]|]; intros H;
    inversion H; reflexivity.
Qed.

Lemma unlink_file (path : string) (fs : filesystem) (raw : Image) :
  fs !! path = Some (ImageFile raw) -> unlink path fs = (Return tt, delete path fs).
Proof. intros H. unfold unlink. rewrite H. reflexivity. Qed.

Lemma box_small (w h : Z) :
  0 < w -> 0 < h -> w * h <= 2 * MAX_IMAGE_PIXELS ->
  decompression_bomb (w, h) = false.
Proof.
  intros Hw Hh Hwh. unfold decompression_bomb. cbn [fst snd].
  rewrite !Z.max_r by lia. apply Z.ltb_ge. exact Hwh.
Qed.

Lemma crop_ok (img : RGBImage) (x0 y0 x1 y1 : Z) (fs : filesystem) :
  x0 <= x1 -> y0 <= y1 -> decompression_bomb (x1 - x0, y1 - y0) = false ->
  crop img (x0, y0, x1, y1) fs = (Return (crop_box img (x0, y0, x1, y1)), fs).
Proof.
  intros Hx Hy Hb. unfold crop.
  destruct (Z.ltb_spec x1 x0); [lia|]. destruct (Z.ltb_spec y1 y0); [lia|].
  rewrite !Z.abs_eq by lia. rewrite Hb. reflexivity.
Qed.

(** C5, as the code has it: whenever [compare_regions] returns, both
    temporary files are gone; with decodable inputs, a box that is not
    empty and not larger than Pillow lets a picture be, and temporary paths
    that are writable, it does return, with the comparison of the two crops,
    and no other path has changed.  Nothing is cleaned up when a step
    raises. *)
Theorem compare_regions_cleanup_on_return :
  (forall (self : ScreenshotCompare) (fs fs' : filesystem) (p1 p2 : string)
          (box : region) (t : Q) (r : bool * Q),
      compare_regions self p1 p2 box t fs = (Return r, fs') ->
      fs' !! joinpath (diff_dir self) "temp_region1.png" = None
      /\ fs' !! joinpath (diff_dir self) "temp_region2.png" = None)
  /\ (forall (self : ScreenshotCompare) (fs : filesystem) (p1 p2 : string)
             (i1 i2 : RGBImage) (x0 y0 x1 y1 : Z) (t : Q),
      decodes fs p1 i1 -> decodes fs p2 i2 -> x0 < x1 -> y0 < y1 ->
      (x1 - x0) * (y1 - y0) <= 2 * MAX_IMAGE_PIXELS ->
      fs !! joinpath (diff_dir self) "temp_region1.png" <> Some Directory ->
      fs !! joinpath (diff_dir self) "temp_region2.png" <> Some Directory ->
      exists (fs' : filesystem) (ratio : Q),
        ratio = spec_difference_ratio (crop_box i1 (x0, y0, x1, y1))
                                      (crop_box i2 (x0, y0, x1, y1))
        /\ compare_regions self p1 p2 (x0, y0, x1, y1) t fs
           = (Return (Qle_bool ratio t, ratio), fs')
        /\ fs' !! joinpath (diff_dir self) "temp_region1.png" = None
        /\ fs' !! joinpath (diff_dir self) "temp_region2.png" = None
        /\ (forall q, q <> joinpath (diff_dir self) "temp_region1.png" ->
                      q <> joinpath (diff_dir self) "temp_region2.png" ->
                      fs' !! q = fs !! q)).
Proof.
  split.
  - intros self fs fs' p1 p2 box t r H. unfold compare_regions in H.
    apply bind_Return_inv in H as (img1 & s1 & _ & H).
    apply bind_Return_inv in H as (img2 & s2 & _ & H).
    apply bind_Return_inv in H as (region1 & s3 & _ & H).
    apply bind_Return_inv in H as (region2 & s4 & _ & H).
    apply bind_Return_inv in H as (u1 & s5 & _ & H).
    apply bind_Return_inv in H as (u2 & s6 & _ & H).
    apply bind_Return_inv in H as (result & s7 & _ & H).
    apply bind_Return_inv in H as (u3 & s8 & Hun1 & H).
    apply bind_Return_inv in H as (u4 & s9 & Hun2 & H).
    apply unlink_Return_inv in Hun1 as ->. apply unlink_Return_inv in Hun2 as ->.
    inversion H; subst. split.
    + rewrite lookup_delete_ne by (symmetry; apply temp_paths_distinct).
      apply lookup_delete_eq.
    + apply lookup_delete_eq.
  - intros self fs p1 p2 i1 i2 x0 y0 x1 y1 t H1 H2 Hx Hy Harea Hd1 Hd2.
    pose proof (png_path_temp1 (diff_dir self)) as Hpng1.
    pose proof (png_path_temp2 (diff_dir self)) as Hpng2.
    set (temp1 := joinpath (diff_dir self) "temp_region1.png") in *.
    set (temp2 := joinpath (diff_dir self) "temp_region2.png") in *.
    set (region1 := crop_box i1 (x0, y0, x1, y1)).
    set (region2 := crop_box i2 (x0, y0, x1, y1)).
    assert (Hne : temp1 <> temp2) by apply temp_paths_distinct.
    set (s1 := <[temp1 := ImageFile (ModeRGB region1)]> fs).
    set (s2 := <[temp2 := ImageFile (ModeRGB region2)]> s1).
    assert (Hbox : nonempty (x1 - x0, y1 - y0) = true).
    { unfold nonempty. simpl. apply andb_true_iff. split; apply Z.ltb_lt; lia. }
    assert (Hsmall : decompression_bomb (x1 - x0, y1 - y0) = false)
      by (apply box_small; lia).
    assert (D1 : decodes s2 temp1 region1).
    { apply (decodes_intro s2 temp1 (ModeRGB region1)); [|exact Hbox|exact Hsmall].
      unfold s2, s1. rewrite lookup_insert_ne by congruence. apply lookup_insert_eq. }
    assert (D2 : decodes s2 temp2 region2).
    { apply (decodes_intro s2 temp2 (ModeRGB region2)); [|exact Hbox|exact Hsmall].
      apply lookup_insert_eq. }
    exists (delete temp2 (delete temp1 s2)), (spec_difference_ratio region1 region2).
    split; [reflexivity|]. split; [|split; [|split]].
    + unfold compare_regions. fold temp1 temp2.
      rewrite (bind_Return _ _ _ _ _ H1), (bind_Return _ _ _ _ _ H2).
      rewrite (bind_Return _ _ _ _ _
                 (crop_ok i1 x0 y0 x1 y1 fs ltac:(lia) ltac:(lia) Hsmall)).
      rewrite (bind_Return _ _ _ _ _
                 (crop_ok i2 x0 y0 x1 y1 fs ltac:(lia) ltac:(lia) Hsmall)).
      fold region1 region2.
      rewrite (bind_Return _ _ _ _ _
                 (Image_save_ok (ModeRGB region1) temp1 fs Hpng1 Hd1 Hbox)).
      fold s1.
      assert (Hd2' : s1 !! temp2 <> Some Directory).
      { unfold s1. rewrite lookup_insert_ne by congruence. exact Hd2. }
      rewrite (bind_Return _ _ _ _ _
                 (Image_save_ok (ModeRGB region2) temp2 s1 Hpng2 Hd2' Hbox)).
      fold s2.
      rewrite (bind_Return _ _ _ _ _
                 (compare_images_same_size self s2 temp1 temp2 region1 region2
                    t true D1 D2 eq_refl)).
      erewrite bind_Return; cycle 1.
      { apply (unlink_file temp1 s2 (ModeRGB region1)).
        unfold s2, s1. rewrite lookup_insert_ne by congruence. apply lookup_insert_eq. }
      erewrite bind_Return; cycle 1.
      { apply (unlink_file temp2 _ (ModeRGB region2)).
        rewrite lookup_delete_ne by congruence. apply lookup_insert_eq. }
      reflexivity.
    + rewrite lookup_delete_ne by congruence. apply lookup_delete_eq.
    + apply lookup_delete_eq.
    + intros q Hq1 Hq2. unfold s2, s1.
      rewrite !lookup_delete_ne, !lookup_insert_ne by congruence. reflexivity.
Qed.

(** ** Housekeeping *)

Example glob_direct_entry :
  matches_png "visual/diffs" "visual/diffs/home_diff.png" = true.
Proof. reflexivity. Qed.

Example glob_nested_entry :
  matches_png "visual/diffs" "visual/diffs/old/home_diff.png" = false.
Proof. reflexivity. Qed.

Example glob_other_suffix :
  matches_png "visual/diffs" "visual/diffs/notes.txt" = false.
Proof. reflexivity. Qed.

Example glob_other_directory :
  matches_png "visual/diffs" "visual/baselines/home.png" = false.
Proof. reflexivity. Qed.

Lemma unlink_not_directory (path : string) (fs : filesystem) :
  is_Some (fs !! path) -> fs !! path <> Some Directory ->
  unlink path fs = (Return tt, delete path fs).
Proof.
  intros [n Hn] Hd. unfold unlink. rewrite Hn.
  destruct n; try reflexivity. congruence.
Qed.

Lemma unlink_directory (path : string) (fs : filesystem) :
  fs !! path = Some Directory -> unlink path fs = (Raise IsADirectoryError, fs).
Proof. intros H. unfold unlink. rewrite H. reflexivity. Qed.

Lemma for_each_unlink_all (listing : list string) (fs : filesystem) :
  NoDup listing ->
  (forall p, p ∈ listing -> is_Some (fs !! p) /\ fs !! p <> Some Directory) ->
  exists fs' : filesystem,
    for_each listing unlink fs = (Return tt, fs')
    /\ (forall p, p ∈ listing -> fs' !! p = None)
    /\ (forall q, q ∉ listing -> fs' !! q = fs !! q).
Proof.
  revert fs. induction listing as [|x rest IH]; intros fs Hnd Hall.
  - exists fs. split; [reflexivity|]. split; [|reflexivity].
    intros p Hp. inversion Hp.
  - apply NoDup_cons in Hnd as [Hx Hnd].
    destruct (Hall x) as [Hsome Hfile]; [left|].
    destruct (IH (delete x fs) Hnd) as (fs' & Hrun & Hgone & Hkept).
    { intros p Hp. rewrite lookup_delete_ne by (intros ->; contradiction).
      apply Hall. right. exact Hp. }
    exists fs'. split; [|split].
    + simpl. rewrite (bind_Return _ _ _ _ _ (unlink_not_directory x fs Hsome Hfile)).
      exact Hrun.
    + intros p [->|Hp]%elem_of_cons; [|apply Hgone; exact Hp].
      rewrite Hkept by exact Hx. apply lookup_delete_eq.
    + intros q Hq. apply not_elem_of_cons in Hq as [Hqx Hq].
      rewrite Hkept by exact Hq. apply lookup_delete_ne. congruence.
Qed.

Lemma for_each_unlink_stops (before : list string) (d : string)
    (after : list string) (fs : filesystem) :
  NoDup (before ++ d :: after) ->
  (forall p, p ∈ before -> is_Some (fs !! p) /\ fs !! p <> Some Directory) ->
  fs !! d = Some Directory ->
  exists fs' : filesystem,
    for_each (before ++ d :: after) unlink fs = (Raise IsADirectoryError, fs')
    /\ (forall p, p ∈ before -> fs' !! p = None)
    /\ (forall q, q ∉ before -> fs' !! q = fs !! q).
Proof.
  revert fs. induction before as [|x rest IH]; intros fs Hnd Hall Hd.
  - exists fs. split; [|split; [intros p Hp; inversion Hp|reflexivity]].
    simpl. apply bind_Raise, unlink_directory, Hd.
  - simpl in Hnd. apply NoDup_cons in Hnd as [Hx Hnd].
    destruct (Hall x) as [Hsome Hfile]; [left|].
    assert (Hxd : x <> d).
    { intros ->. apply Hx. apply elem_of_app. right. left. }
    assert (Hxr : x ∉ rest).
    { intros Hin. apply Hx. apply elem_of_app. left. exact Hin. }
    destruct (IH (delete x fs) Hnd) as (fs' & Hrun & Hgone & Hkept).
    { intros p Hp. rewrite lookup_delete_ne by (intros ->; contradiction).
      apply Hall. right. exact Hp. }
    { rewrite lookup_delete_ne by exact Hxd. exact Hd. }
    exists fs'. split; [|split].
    + simpl. rewrite (bind_Return _ _ _ _ _ (unlink_not_directory x fs Hsome Hfile)).
      exact Hrun.
    + intros p [->|Hp]%elem_of_cons; [|apply Hgone; exact Hp].
      rewrite Hkept by exact Hxr. apply lookup_delete_eq.
    + intros q Hq. apply not_elem_of_cons in Hq as [Hqx Hq].
      rewrite Hkept by exact Hq. apply lookup_delete_ne. congruence.
Qed.

Lemma for_each_unlink_glob (dir : string) :
  unlinks_until_first_failure dir (fun listing => for_each listing unlink).
Proof.
  intros fs listing [Hnd Hglob]. split.
  - intros Hfiles.
    destruct (for_each_unlink_all listing fs Hnd) as (fs' & Hrun & Hgone & Hkept).
    { intros p Hp. split; [apply Hglob, Hp|apply Hfiles, Hp]. }
    exists fs'. split; [exact Hrun|]. split.
    + intros p Hm. destruct (fs !! p) as [n|] eqn:Hp.
      * apply Hgone, Hglob. split; [rewrite Hp; eauto|exact Hm].
      * destruct (decide (p ∈ listing)) as [Hin|Hout]; [apply Hgone, Hin|].
        rewrite Hkept by exact Hout. exact Hp.
    + intros q Hm. apply Hkept. intros Hin. apply Hglob in Hin as [_ Hin].
      congruence.
  - intros before d after -> Hfiles Hd.
    apply for_each_unlink_stops; [exact Hnd| |exact Hd].
    intros p Hp. split; [|apply Hfiles, Hp].
    apply Hglob, elem_of_app. left. exact Hp.
Qed.

(** C6, as the code has it: [clear_diffs] and [clear_baselines] unlink the
    listed [.png] entries in order and stop at the first one whose deletion
    fails; the entries listed before it are deleted, the failing entry and
    all later ones stay; when no deletion fails no [.png] entry is left and
    nothing else is touched. *)
Theorem clear_stops_at_first_failure (self : ScreenshotCompare) :
  unlinks_until_first_failure (diff_dir self) (clear_diffs self)
  /\ unlinks_until_first_failure (baseline_dir self) (clear_baselines self).
Proof. split; apply for_each_unlink_glob. Qed.

End Properties.

(** ** The theorems at sample inputs *)

Lemma compare_with_baseline_bootstrap_witness :
  exists fs1 : filesystem,
    compare_with_baseline nearest sc "shot.png" "home" (1 # 20) true shots
    = (Return (true, 0%Q, None), fs1)
    /\ fs1 !! joinpath (baseline_dir sc) ("home" +:+ ".png") = shots !! "shot.png"
    /\ (forall q, q <> joinpath (baseline_dir sc) ("home" +:+ ".png") ->
                  fs1 !! q = shots !! q)
    /\ (forall (threshold' : Q) (save_diff' : bool), (0 <= threshold')%Q ->
          compare_with_baseline nearest sc "shot.png" "home" threshold' save_diff' fs1
          = (Return (true, 0%Q, None), fs1)).
Proof.
  apply (compare_with_baseline_bootstrap nearest sc shots "shot.png" "home"
           red_blue (1 # 20) true).
  - reflexivity.
  - reflexivity.
  - right. left. reflexivity.
  - reflexivity.
Defined.

Lemma failing_comparison_keeps_baseline_witness :
  compare_with_baseline nearest sc "other.png" "home" (1 # 10) true baselined
  = (Return (false, 6004799503160661 # 9007199254740992,
             Some "visual/diffs/home_diff.png"),
     <["visual/diffs/home_diff.png"
         := ImageFile (ModeRGB (comparison_of nearest red_blue blue_red))]> baselined)
  /\ (<["visual/diffs/home_diff.png"
         := ImageFile (ModeRGB (comparison_of nearest red_blue blue_red))]> baselined)
       !! joinpath (baseline_dir sc) ("home" +:+ ".png")
     = baselined !! joinpath (baseline_dir sc) ("home" +:+ ".png").
Proof.
  assert (Hrun :
    compare_with_baseline nearest sc "other.png" "home" (1 # 10) true baselined
    = (Return (false, 6004799503160661 # 9007199254740992,
               Some "visual/diffs/home_diff.png"),
       <["visual/diffs/home_diff.png"
           := ImageFile (ModeRGB (comparison_of nearest red_blue blue_red))]> baselined))
    by reflexivity.
  assert (Hex : is_Some (baselined !! joinpath (baseline_dir sc) ("home" +:+ ".png")))
    by (eexists; reflexivity).
  split; [exact Hrun|].
  exact (proj1 (proj1 (failing_comparison_keeps_baseline nearest) sc baselined _
                  "other.png" "home" (1 # 10) true _ Hex Hrun)).
Defined.

(** C4 as stated fails: with one directory for baselines and artifacts, the
    failing comparison of ["home"], whose baseline exists, writes its
    artifact over the baseline of ["home_diff"]. *)
Lemma failing_comparison_overwrites_a_baseline :
  shelf !! joinpath (baseline_dir shared) ("home_diff" +:+ ".png")
  = Some (ImageFile (ModeRGB blue_red))
  /\ is_Some (shelf !! joinpath (baseline_dir shared) ("home" +:+ ".png"))
  /\ exists fs' : filesystem,
       compare_with_baseline nearest shared "other.png" "home" (1 # 10) true shelf
       = (Return (false, 6004799503160661 # 9007199254740992,
                  Some "visual/shots/home_diff.png"), fs')
       /\ fs' !! joinpath (baseline_dir shared) ("home_diff" +:+ ".png")
          = Some (ImageFile (ModeRGB (comparison_of nearest red_blue blue_red)))
       /\ fs' !! joinpath (baseline_dir shared) ("home_diff" +:+ ".png")
          <> shelf !! joinpath (baseline_dir shared) ("home_diff" +:+ ".png").
Proof.
  split; [reflexivity|]. split; [eexists; reflexivity|].
  exists (<["visual/shots/home_diff.png"
             := ImageFile (ModeRGB (comparison_of nearest red_blue blue_red))]> shelf).
  split; [reflexivity|]. split; [reflexivity|].
  intros H. change (Some (ImageFile (ModeRGB (comparison_of nearest red_blue blue_red)))
                    = Some (ImageFile (ModeRGB blue_red))) in H.
  assert (Hsz : size (comparison_of nearest red_blue blue_red) = size blue_red)
    by congruence.
  discriminate Hsz.
Qed.

Lemma compare_with_baseline_result_witness :
  exists (is_similar : bool) (ratio : Q),
    compare_images sc (joinpath (baseline_dir sc) ("home" +:+ ".png"))
      "other.png" (1 # 10) true baselined = (Return (is_similar, ratio), baselined)
    /\ (is_similar = true ->
        compare_with_baseline nearest sc "other.png" "home" (1 # 10) true baselined
        = (Return (true, ratio, None), baselined))
    /\ (is_similar = false -> true = true ->
        compare_with_baseline nearest sc "other.png" "home" (1 # 10) true baselined
        = (Return (false, ratio,
                   Some (joinpath (diff_dir sc) ("home" +:+ "_diff.png"))),
           <[joinpath (diff_dir sc) ("home" +:+ "_diff.png")
               := ImageFile (ModeRGB (comparison_of nearest red_blue blue_red))]>
             baselined))
    /\ (is_similar = false -> true = false ->
        compare_with_baseline nearest sc "other.png" "home" (1 # 10) true baselined
        = (Return (false, ratio, None), baselined))
    /\ (no_slash "home" = true ->
        joinpath (diff_dir sc) ("home" +:+ "_diff.png")
        = child_prefix (diff_dir sc) +:+ "home" +:+ "_diff.png").
Proof.
  apply (compare_with_baseline_result nearest sc baselined "other.png" "home"
           red_blue blue_red (1 # 10) true).
  - reflexivity.
  - reflexivity.
  - discriminate.
  - right. right. left. reflexivity.
Defined.

Lemma create_diff_image_layout_witness :
  exists composite panel : RGBImage,
    create_diff_image nearest sc "shot.png" "white.png" "out.png" shots
    = (Return tt, <["out.png" := ImageFile (ModeRGB composite)]> shots)
    /\ size composite = (3 * (size red_blue).1, (size red_blue).2)
    /\ size panel = size red_blue
    /\ (size (solid (100, 100) white) = size red_blue -> panel = solid (100, 100) white)
    /\ (size (solid (100, 100) white) <> size red_blue ->
        panel = resize nearest (solid (100, 100) white) (size red_blue))
    /\ forall x y, 0 <= x < (size red_blue).1 -> 0 <= y < (size red_blue).2 ->
         getpixel composite x y = getpixel red_blue x y
         /\ getpixel composite ((size red_blue).1 + x) y = getpixel panel x y
         /\ getpixel composite (2 * (size red_blue).1 + x) y
            = spec_amplified_gap (getpixel red_blue x y) (getpixel panel x y).
Proof.
  apply (create_diff_image_layout nearest sc shots "shot.png" "white.png" "out.png"
           red_blue (solid (100, 100) white)).
  - reflexivity.
  - reflexivity.
  - split; [reflexivity|]. split; [left; reflexivity|discriminate].
Defined.

Lemma compare_regions_cleanup_on_return_witness :
  (exists (fs' : filesystem) (ratio : Q),
     ratio = spec_difference_ratio (crop_box red_blue (0, 0, 1, 1))
                                   (crop_box blue_red (0, 0, 1, 1))
     /\ compare_regions sc "shot.png" "other.png" (0, 0, 1, 1) (1 # 10) shots
        = (Return (Qle_bool ratio (1 # 10), ratio), fs')
     /\ fs' !! joinpath (diff_dir sc) "temp_region1.png" = None
     /\ fs' !! joinpath (diff_dir sc) "temp_region2.png" = None
     /\ (forall q, q <> joinpath (diff_dir sc) "temp_region1.png" ->
                   q <> joinpath (diff_dir sc) "temp_region2.png" ->
                   fs' !! q = shots !! q))
  /\ (compare_regions sc "shot.png" "other.png" (0, 0, 1, 1) (1 # 10) shots
      = (Return (false, 6004799503160661 # 9007199254740992), shots)
      /\ shots !! joinpath (diff_dir sc) "temp_region1.png" = None
      /\ shots !! joinpath (diff_dir sc) "temp_region2.png" = None).
Proof.
  split.
  - apply (proj2 compare_regions_cleanup_on_return sc shots "shot.png" "other.png"
             red_blue blue_red 0 0 1 1 (1 # 10)).
    + reflexivity.
    + reflexivity.
    + lia.
    + lia.
    + discriminate.
    + discriminate.
    + discriminate.
  - assert (Hrun :
      compare_regions sc "shot.png" "other.png" (0, 0, 1, 1) (1 # 10) shots
      = (Return (false, 6004799503160661 # 9007199254740992), shots))
      by reflexivity.
    split; [exact Hrun|].
    exact (proj1 compare_regions_cleanup_on_return sc shots shots
             "shot.png" "other.png" (0, 0, 1, 1) (1 # 10)
             (false, 6004799503160661 # 9007199254740992) Hrun).
Defined.

(** C5 as stated fails: the second temporary path is taken by a directory,
    saving the second crop raises, and the first temporary file, which was
    not there before the call, is left behind. *)
Lemma compare_regions_leaves_temp_file :
  blocked !! joinpath (diff_dir sc) "temp_region1.png" = None
  /\ exists fs' : filesystem,
       compare_regions sc "shot.png" "other.png" (0, 0, 1, 1) (1 # 10) blocked
       = (Raise IsADirectoryError, fs')
       /\ fs' !! joinpath (diff_dir sc) "temp_region1.png"
          = Some (ImageFile (ModeRGB (crop_box red_blue (0, 0, 1, 1)))).
Proof.
  split; [reflexivity|].
  exists (<[joinpath (diff_dir sc) "temp_region1.png"
             := ImageFile (ModeRGB (crop_box red_blue (0, 0, 1, 1)))]> blocked).
  split; reflexivity.
Qed.

Lemma tidy_listing :
  glob_png (diff_dir sc) tidy ["visual/diffs/home_diff.png"].
Proof.
  split; [apply NoDup_singleton|]. intros p. split.
  - intros Hp. apply list_elem_of_singleton in Hp as ->.
    split; [eexists|]; reflexivity.
  - intros [Hsome Hm]. unfold tidy in Hsome.
    apply lookup_insert_is_Some in Hsome as [<-|[_ [n Hn]]]; [left|].
    apply lookup_singleton_Some in Hn as [<- _]. discriminate Hm.
Qed.

Lemma cluttered_listing :
  glob_png (diff_dir sc) cluttered
    ["visual/diffs/old.png"; "visual/diffs/home_diff.png"].
Proof.
  split.
  - apply NoDup_cons. split; [|apply NoDup_singleton].
    intros H. apply list_elem_of_singleton in H. discriminate H.
  - intros p. split.
    + intros Hp. apply elem_of_cons in Hp as [->|Hp];
        [|apply list_elem_of_singleton in Hp as ->];
        (split; [eexists|]; reflexivity).
    + intros [Hsome _]. unfold cluttered in Hsome.
      apply lookup_insert_is_Some in Hsome as [<-|[_ [n Hn]]]; [left|].
      apply lookup_singleton_Some in Hn as [<- _]. right. left.
Qed.

Lemma clear_stops_at_first_failure_witness :
  (exists fs' : filesystem,
     clear_diffs sc ["visual/diffs/home_diff.png"] tidy = (Return tt, fs')
     /\ (forall p, matches_png (diff_dir sc) p = true -> fs' !! p = None)
     /\ (forall q, matches_png (diff_dir sc) q = false -> fs' !! q = tidy !! q))
  /\ (exists fs' : filesystem,
        clear_diffs sc ["visual/diffs/old.png"; "visual/diffs/home_diff.png"] cluttered
        = (Raise IsADirectoryError, fs')
        /\ (forall p, p ∈ @nil string -> fs' !! p = None)
        /\ (forall q, q ∉ @nil string -> fs' !! q = cluttered !! q)).
Proof.
  split.
  - apply (proj1 (proj1 (clear_stops_at_first_failure sc) tidy
                    ["visual/diffs/home_diff.png"] tidy_listing)).
    intros p Hp. apply list_elem_of_singleton in Hp as ->. discriminate.
  - apply (proj2 (proj1 (clear_stops_at_first_failure sc) cluttered
                    ["visual/diffs/old.png"; "visual/diffs/home_diff.png"]
                    cluttered_listing)
             [] "visual/diffs/old.png" ["visual/diffs/home_diff.png"]).
    + reflexivity.
    + intros p Hp. inversion Hp.
    + reflexivity.
Defined.

(** C6 as stated fails: the diff directory lists a sub-directory named
    [old.png] before the artifact [home_diff.png]; unlinking the
    sub-directory raises, the loop ends there, and the artifact, which
    [unlink] would have deleted, is still in place. *)
Lemma clear_diffs_aborts_at_failure :
  glob_png (diff_dir sc) cluttered
    ["visual/diffs/old.png"; "visual/diffs/home_diff.png"]
  /\ clear_diffs sc ["visual/diffs/old.png"; "visual/diffs/home_diff.png"] cluttered
     = (Raise IsADirectoryError, cluttered)
  /\ cluttered !! "visual/diffs/home_diff.png" = Some (ImageFile (ModeRGB red_blue))
  /\ unlink "visual/diffs/home_diff.png" cluttered
     = (Return tt, delete "visual/diffs/home_diff.png" cluttered).
Proof.
  split; [exact cluttered_listing|]. repeat split.
Qed.

(** * Further properties of the comparator *)

(** ** The shape of a comparison *)

Lemma open_RGB_cases (path : string) (fs : filesystem) :
  (exists img, decodes fs path img) \/ (exists e, open_RGB path fs = (Raise e, fs)).
Proof.
  destruct (open_RGB path fs) as [[img|e] fs'] eqn:E;
    pose proof (open_RGB_state _ _ _ _ E) as ->; [left|right]; eauto.
Qed.

Lemma compare_images_first_raises (self : ScreenshotCompare) (fs : filesystem)
    (p1 p2 : string) (t : Q) (aa : bool) (e : exn) :
  open_RGB p1 fs = (Raise e, fs) ->
  compare_images self p1 p2 t aa fs = (Raise e, fs).
Proof. intros H. unfold compare_images. apply bind_Raise. exact H. Qed.

Lemma compare_images_second_raises (self : ScreenshotCompare) (fs : filesystem)
    (p1 p2 : string) (i1 : RGBImage) (t : Q) (aa : bool) (e : exn) :
  decodes fs p1 i1 -> open_RGB p2 fs = (Raise e, fs) ->
  compare_images self p1 p2 t aa fs = (Raise e, fs).
Proof.
  intros H1 H2. unfold compare_images. rewrite (bind_Return _ _ _ _ _ H1).
  apply bind_Raise. exact H2.
Qed.

Lemma compare_images_verdict (self : ScreenshotCompare) (fs : filesystem)
    (p1 p2 : string) (i1 i2 : RGBImage) (t : Q) (aa : bool) :
  decodes fs p1 i1 -> decodes fs p2 i2 ->
  compare_images self p1 p2 t aa fs = (Return (verdict i1 i2 t), fs).
Proof.
  intros H1 H2. unfold verdict. case_bool_decide as Hsz.
  - apply (compare_images_same_size self fs p1 p2 i1 i2); assumption.
  - apply (compare_images_size_mismatch self fs p1 p2 i1 i2); assumption.
Qed.

Lemma compare_images_Return_verdict (self : ScreenshotCompare)
    (fs fs' : filesystem) (p1 p2 : string) (t : Q) (aa : bool) (v : bool * Q) :
  compare_images self p1 p2 t aa fs = (Return v, fs') ->
  exists i1 i2, decodes fs p1 i1 /\ decodes fs p2 i2 /\ v = verdict i1 i2 t /\ fs' = fs.
Proof.
  intros H.
  destruct (open_RGB_cases p1 fs) as [[i1 H1]|[e He]].
  - destruct (open_RGB_cases p2 fs) as [[i2 H2]|[e He]].
    + rewrite (compare_images_verdict self fs p1 p2 i1 i2 t aa H1 H2) in H.
      inversion H; subst. exists i1, i2. repeat split; assumption.
    + rewrite (compare_images_second_raises self fs p1 p2 i1 t aa e H1 He) in H.
      discriminate.
  - rewrite (compare_images_first_raises self fs p1 p2 t aa e He) in H.
    discriminate.
Qed.

(** X1: the difference ratio [compare_images] returns does not depend on the
    threshold, and a comparison that is similar under a threshold is similar
    under every larger one. *)
Theorem compare_images_threshold_monotone (self : ScreenshotCompare)
    (fs fs' : filesystem) (p1 p2 : string) (t t' : Q) (aa aa' : bool)
    (is_similar : bool) (ratio : Q) :
  compare_images self p1 p2 t aa fs = (Return (is_similar, ratio), fs') ->
  (exists is_similar' : bool,
     compare_images self p1 p2 t' aa' fs = (Return (is_similar', ratio), fs'))
  /\ ((t <= t')%Q -> is_similar = true ->
      compare_images self p1 p2 t' aa' fs = (Return (true, ratio), fs')).
Proof.
  intros H.
  apply compare_images_Return_verdict in H as (i1 & i2 & H1 & H2 & Hv & ->).
  rewrite (compare_images_verdict self fs p1 p2 i1 i2 t' aa' H1 H2).
  unfold verdict in *. case_bool_decide as Hsz; inversion Hv; subst.
  - split; [eauto|]. intros Hle Hs. apply Qle_bool_iff in Hs.
    assert (Hs' : Qle_bool (spec_difference_ratio i1 i2) t' = true).
    { apply Qle_bool_iff. eapply Qle_trans; eassumption. }
    rewrite Hs'. reflexivity.
  - split; [eauto|]. intros _ Hs. discriminate.
Qed.

(** X2: [compare_images] raises exactly when opening and converting one of
    the two files raises, with the exception of the first file that fails,
    the baseline being opened first; the file system is left as it was.  No
    later step of the comparison raises. *)
Theorem compare_images_raises_iff (self : ScreenshotCompare)
    (fs fs' : filesystem) (p1 p2 : string) (t : Q) (aa : bool) (e : exn) :
  compare_images self p1 p2 t aa fs = (Raise e, fs') <->
  fs' = fs
  /\ (open_RGB p1 fs = (Raise e, fs)
      \/ ((exists i1, decodes fs p1 i1) /\ open_RGB p2 fs = (Raise e, fs))).
Proof.
  split.
  - intros H. pose proof (compare_images_state _ _ _ _ _ _ _ _ H) as ->.
    split; [reflexivity|].
    destruct (open_RGB_cases p1 fs) as [[i1 H1]|[e1 He1]].
    + destruct (open_RGB_cases p2 fs) as [[i2 H2]|[e2 He2]].
      * rewrite (compare_images_verdict self fs p1 p2 i1 i2 t aa H1 H2) in H.
        discriminate.
      * rewrite (compare_images_second_raises self fs p1 p2 i1 t aa e2 H1 He2) in H.
        inversion H; subst. right. eauto.
    + rewrite (compare_images_first_raises self fs p1 p2 t aa e1 He1) in H.
      inversion H; subst. left. exact He1.
  - intros [-> [H|[[i1 H1] H2]]].
    + apply compare_images_first_raises. exact H.
    + eapply compare_images_second_raises; eassumption.
Qed.

(** ** The ratio as a number *)

Lemma ratio_as_fraction (a d : Z) :
  0 < d -> (inject_Z a / inject_Z d == a # Z.to_pos d)%Q.
Proof. intros Hd. destruct d as [|p|p]; try lia. symmetry. apply Qmake_Qdiv. Qed.

(** A quotient of integers that is not zero, with a divisor of at most 37
    bits, does not round to zero. *)
Lemma ratio_pos (a d : Z) :
  0 < d -> d <= 137438953472 -> 0 < a ->
  (0 < round_double (inject_Z a / inject_Z d))%Q.
Proof.
  intros Hd Hb Ha. pose proof (ratio_as_fraction a d Hd) as Hq.
  apply round_double_pos.
  - rewrite Hq. unfold Qlt. simpl. lia.
  - apply Qle_trans with (2 ^ (-37))%Q.
    + apply Qpower_le_compat_l; [lia|discriminate].
    + rewrite Hq. change (2 ^ (-37))%Q with (1 # 137438953472)%Q.
      unfold Qle. cbn [Qnum Qden]. rewrite Z2Pos.id by exact Hd. lia.
Qed.

Lemma ratio_zero_iff (a d : Z) :
  0 < d -> d <= 137438953472 -> 0 <= a ->
  round_double (inject_Z a / inject_Z d) = 0%Q <-> a = 0.
Proof.
  intros Hd Hb Ha. split.
  - intros H. destruct (decide (a = 0)) as [|Hne]; [assumption|].
    pose proof (ratio_pos a d Hd Hb ltac:(lia)) as Hpos. rewrite H in Hpos.
    discriminate.
  - intros ->. apply ratio_zero.
Qed.

Lemma ratio_nonneg (a d : Z) :
  0 < d -> 0 <= a -> (0 <= round_double (inject_Z a / inject_Z d))%Q.
Proof.
  intros Hd Ha. apply round_double_nonneg.
  rewrite (ratio_as_fraction a d Hd). unfold Qle. simpl. lia.
Qed.

Lemma ratio_at_most_one (a d : Z) :
  0 < d -> 0 <= a -> a <= d -> (round_double (inject_Z a / inject_Z d) <= 1)%Q.
Proof.
  intros Hd Ha Had. apply round_double_le_one; rewrite (ratio_as_fraction a d Hd);
    unfold Qle; simpl; [lia|].
  rewrite Z2Pos.id by exact Hd. lia.
Qed.

(** The divisor of a comparison has at most 37 bits. *)
Lemma decodes_divisor (fs : filesystem) (path : string) (img : RGBImage) :
  decodes fs path img ->
  0 < (size img).1 * (size img).2 * 3 * 255 <= 137438953472.
Proof.
  intros H. destruct (decodes_nonempty _ _ _ H) as [Hw Hh].
  pose proof (decodes_small _ _ _ H) as Hs. unfold decompression_bomb in Hs.
  apply Z.ltb_ge in Hs. rewrite !Z.max_r in Hs by lia.
  change (2 * MAX_IMAGE_PIXELS) with 178956970 in Hs.
  pose proof (Z.mul_pos_pos _ _ Hw Hh). lia.
Qed.

Lemma sigma_le (n : nat) (f g : Z -> Z) :
  (forall i, 0 <= i < Z.of_nat n -> f i <= g i) -> sigma n f <= sigma n g.
Proof.
  induction n as [|k IH]; intros H; simpl; [lia|].
  assert (sigma k f <= sigma k g) by (apply IH; intros; apply H; lia).
  assert (f (Z.of_nat k) <= g (Z.of_nat k)) by (apply H; lia). lia.
Qed.

Lemma sigma_nonneg (n : nat) (f : Z -> Z) :
  (forall i, 0 <= i < Z.of_nat n -> 0 <= f i) -> 0 <= sigma n f.
Proof.
  intros H. rewrite <- (Z.mul_0_r (Z.of_nat n)), <- sigma_const.
  apply sigma_le. exact H.
Qed.

Lemma sigma_zero_iff (n : nat) (f : Z -> Z) :
  (forall i, 0 <= i < Z.of_nat n -> 0 <= f i) ->
  sigma n f = 0 <-> (forall i, 0 <= i < Z.of_nat n -> f i = 0).
Proof.
  induction n as [|k IH]; intros Hpos; simpl.
  - split; [intros _ i Hi; lia|reflexivity].
  - assert (Hk : 0 <= sigma k f) by (apply sigma_nonneg; intros; apply Hpos; lia).
    assert (Hf : 0 <= f (Z.of_nat k)) by (apply Hpos; lia).
    split.
    + intros Hsum i Hi. destruct (decide (i = Z.of_nat k)) as [->|Hne]; [lia|].
      apply IH; [intros; apply Hpos; lia|lia|lia].
    + intros Hall. rewrite (proj2 (IH ltac:(intros; apply Hpos; lia)))
        by (intros; apply Hall; lia).
      rewrite Hall by lia. reflexivity.
Qed.

Lemma pixel_gap_nonneg (p q : rgb) : 0 <= pixel_gap p q.
Proof. unfold pixel_gap. lia. Qed.

Lemma pixel_gap_sym (p q : rgb) : pixel_gap p q = pixel_gap q p.
Proof. unfold pixel_gap. lia. Qed.

Lemma pixel_gap_zero_iff (p q : rgb) : pixel_gap p q = 0 <-> p = q.
Proof.
  destruct p as [[r1 g1] b1], q as [[r2 g2] b2]. unfold pixel_gap. simpl. split.
  - intros H. f_equal; [f_equal|]; lia.
  - intros [= -> -> ->]. lia.
Qed.

Lemma total_gap_nonneg (a b : RGBImage) : 0 <= total_gap a b.
Proof.
  unfold total_gap. apply sigma_nonneg. intros y _. apply sigma_nonneg.
  intros x _. apply pixel_gap_nonneg.
Qed.

Lemma total_gap_sym (a b : RGBImage) :
  size a = size b -> total_gap a b = total_gap b a.
Proof.
  intros Hsz. unfold total_gap. rewrite Hsz. apply sigma_ext. intros y _.
  apply sigma_ext. intros x _. apply pixel_gap_sym.
Qed.

Lemma total_gap_zero_iff (a b : RGBImage) :
  total_gap a b = 0 <-> same_pixels a b.
Proof.
  unfold total_gap, same_pixels. rewrite sigma_zero_iff
    by (intros; apply sigma_nonneg; intros; apply pixel_gap_nonneg).
  split.
  - intros H x y Hx Hy. apply pixel_gap_zero_iff.
    assert (Hrow := H y ltac:(lia)).
    rewrite sigma_zero_iff in Hrow by (intros; apply pixel_gap_nonneg).
    apply Hrow. lia.
  - intros H y Hy. apply sigma_zero_iff; [intros; apply pixel_gap_nonneg|].
    intros x Hx. apply pixel_gap_zero_iff, H; lia.
Qed.

Lemma total_gap_bound (a b : RGBImage) :
  size a = size b -> eight_bit a -> eight_bit b ->
  0 < (size a).1 -> 0 < (size a).2 ->
  total_gap a b <= (size a).1 * (size a).2 * 3 * 255.
Proof.
  intros Hsz Ha Hb Hw Hh. unfold total_gap.
  etransitivity.
  - apply (sigma_le _ _ (fun _ => (size a).1 * 765)). intros y Hy.
    etransitivity.
    + apply (sigma_le _ _ (fun _ => 765)). intros x Hx.
      destruct (Ha x y) as (? & ? & ?); [lia|lia|].
      destruct (Hb x y) as (? & ? & ?); [rewrite <- Hsz; lia|rewrite <- Hsz; lia|].
      unfold pixel_gap. lia.
    + rewrite sigma_const. lia.
  - rewrite sigma_const. nia.
Qed.

Lemma verdict_sym (i1 i2 : RGBImage) (t : Q) : verdict i1 i2 t = verdict i2 i1 t.
Proof.
  unfold verdict. case_bool_decide as H12; case_bool_decide as H21;
    try congruence.
  assert (Hr : spec_difference_ratio i1 i2 = spec_difference_ratio i2 i1).
  { unfold spec_difference_ratio. rewrite total_gap_sym, H12 by exact H12.
    reflexivity. }
  rewrite Hr. reflexivity.
Qed.

(** X3: for two files that decode, [compare_images] returns the same result
    whichever of the two is passed as the baseline. *)
Theorem compare_images_symmetric (self : ScreenshotCompare) (fs : filesystem)
    (p1 p2 : string) (i1 i2 : RGBImage) (t : Q) (aa aa' : bool) :
  decodes fs p1 i1 -> decodes fs p2 i2 ->
  compare_images self p1 p2 t aa fs = compare_images self p2 p1 t aa' fs.
Proof.
  intros H1 H2.
  rewrite (compare_images_verdict self fs p1 p2 i1 i2 t aa H1 H2).
  rewrite (compare_images_verdict self fs p2 p1 i2 i1 t aa' H2 H1).
  rewrite verdict_sym. reflexivity.
Qed.

(** X4: for two files that decode to pictures with 8-bit channels, the
    difference ratio [compare_images] returns lies between 0 and 1. *)
Theorem compare_images_ratio_bounds (self : ScreenshotCompare) (fs : filesystem)
    (p1 p2 : string) (i1 i2 : RGBImage) (t : Q) (aa : bool) :
  decodes fs p1 i1 -> decodes fs p2 i2 -> eight_bit i1 -> eight_bit i2 ->
  exists (is_similar : bool) (ratio : Q),
    compare_images self p1 p2 t aa fs = (Return (is_similar, ratio), fs)
    /\ (0 <= ratio)%Q /\ (ratio <= 1)%Q.
Proof.
  intros H1 H2 E1 E2.
  rewrite (compare_images_verdict self fs p1 p2 i1 i2 t aa H1 H2).
  unfold verdict. destruct (decodes_nonempty _ _ _ H1) as [Hw Hh].
  assert (Hd : 0 < (size i1).1 * (size i1).2 * 3 * 255).
  { pose proof (Z.mul_pos_pos _ _ Hw Hh). lia. }
  case_bool_decide as Hsz.
  - eexists _, _. split; [reflexivity|]. unfold spec_difference_ratio. split.
    + apply ratio_nonneg; [exact Hd|apply total_gap_nonneg].
    + apply ratio_at_most_one;
        [exact Hd|apply total_gap_nonneg|apply total_gap_bound; assumption].
  - eexists _, _. split; [reflexivity|]. split; discriminate.
Qed.

(** X5: for two files that decode to pictures of the same size, the ratio
    [compare_images] returns is 0 exactly when the two pictures hold the
    same pixel everywhere, and under threshold 0 the comparison is similar
    exactly in that case. *)
Theorem compare_images_zero_iff_identical (self : ScreenshotCompare)
    (fs : filesystem) (p1 p2 : string) (i1 i2 : RGBImage) (aa : bool) :
  decodes fs p1 i1 -> decodes fs p2 i2 -> size i1 = size i2 ->
  exists (is_similar : bool) (ratio : Q),
    compare_images self p1 p2 0 aa fs = (Return (is_similar, ratio), fs)
    /\ (ratio = 0%Q <-> same_pixels i1 i2)
    /\ (is_similar = true <-> same_pixels i1 i2).
Proof.
  intros H1 H2 Hsz.
  rewrite (compare_images_same_size self fs p1 p2 i1 i2 0 aa H1 H2 Hsz).
  destruct (decodes_divisor _ _ _ H1) as [Hd Hb].
  pose proof (total_gap_nonneg i1 i2) as Hgap.
  eexists _, _. split; [reflexivity|].
  assert (Hzero : spec_difference_ratio i1 i2 = 0%Q <-> same_pixels i1 i2).
  { unfold spec_difference_ratio. rewrite (ratio_zero_iff _ _ Hd Hb Hgap).
    apply total_gap_zero_iff. }
  split; [exact Hzero|]. rewrite <- Hzero, Qle_bool_iff. split.
  - intros Hle. unfold spec_difference_ratio in *.
    apply (ratio_zero_iff _ _ Hd Hb Hgap).
    destruct (decide (total_gap i1 i2 = 0)) as [|Hne]; [assumption|].
    pose proof (ratio_pos (total_gap i1 i2) _ Hd Hb ltac:(lia)) as Hpos.
    exfalso. exact (Qlt_not_le _ _ Hpos Hle).
  - intros ->. discriminate.
Qed.

(** ** Baselines: saving, updating, comparing again *)

Lemma decodes_insert_ne (fs : filesystem) (p q : string) (n : node) (img : RGBImage) :
  decodes fs p img -> q <> p -> decodes (<[q := n]> fs) p img.
Proof.
  intros H Hqp. pose proof (decodes_small _ _ _ H) as Hs.
  apply decodes_inv in H as (raw & Hraw & -> & Hne).
  rewrite size_convert_RGB in Hs.
  apply decodes_intro; [|exact Hne|exact Hs].
  rewrite lookup_insert_ne by exact Hqp. exact Hraw.
Qed.

Lemma save_baseline_ok (self : ScreenshotCompare) (fs : filesystem)
    (screenshot_path name : string) (raw : Image) :
  fs !! screenshot_path = Some (ImageFile raw) ->
  nonempty (Image_size raw) = true ->
  decompression_bomb (Image_size raw) = false ->
  png_path (joinpath (baseline_dir self) (name +:+ ".png")) ->
  fs !! joinpath (baseline_dir self) (name +:+ ".png") <> Some Directory ->
  save_baseline self screenshot_path name fs
  = (Return (joinpath (baseline_dir self) (name +:+ ".png")),
     <[joinpath (baseline_dir self) (name +:+ ".png") := ImageFile raw]> fs).
Proof.
  intros Hraw Hne Hs Hpng Hd. unfold save_baseline.
  assert (Hopen : Image_open screenshot_path fs = (Return raw, fs)).
  { unfold Image_open. rewrite Hraw, Hne, Hs. reflexivity. }
  rewrite (bind_Return _ _ _ _ _ Hopen).
  rewrite (bind_Return _ _ _ _ _ (Image_save_ok raw _ fs Hpng Hd Hne)). reflexivity.
Qed.

Lemma save_baseline_raises (self : ScreenshotCompare) (fs : filesystem)
    (screenshot_path name : string) (e : exn) :
  Image_open screenshot_path fs = (Raise e, fs) ->
  save_baseline self screenshot_path name fs = (Raise e, fs).
Proof. intros H. unfold save_baseline. apply bind_Raise. exact H. Qed.

Lemma Image_open_state (path : string) (fs fs' : filesystem) (o : outcome Image) :
  Image_open path fs = (o, fs') -> fs' = fs.
Proof.
  unfold Image_open. intros H.
  destruct (fs !! path) as [[img| |]|]; try (inversion H; reflexivity).
  destruct (nonempty (Image_size img)); [|inversion H; reflexivity].
  destruct (decompression_bomb (Image_size img)); inversion H; reflexivity.
Qed.

Section MoreProperties.

Variable resample : RGBImage -> Z * Z -> Z -> Z -> rgb.

(** What [compare_with_baseline] does when the baseline and the candidate
    decode and the diff artifact can be written. *)
Lemma compare_with_baseline_run (self : ScreenshotCompare) (fs : filesystem)
    (candidate name : string) (b c : RGBImage) (t : Q) (save_diff : bool) :
  decodes fs (joinpath (baseline_dir self) (name +:+ ".png")) b ->
  decodes fs candidate c ->
  fs !! joinpath (diff_dir self) (name +:+ "_diff.png") <> Some Directory ->
  compare_with_baseline resample self candidate name t save_diff fs
  = if negb (verdict b c t).1 && save_diff
    then (Return (verdict b c t,
                  Some (joinpath (diff_dir self) (name +:+ "_diff.png"))),
          <[joinpath (diff_dir self) (name +:+ "_diff.png")
              := ImageFile (ModeRGB (comparison_of resample b c))]> fs)
    else (Return (verdict b c t, None), fs).
Proof.
  intros Hb Hc Hout.
  set (bp := joinpath (baseline_dir self) (name +:+ ".png")) in *.
  assert (Hex : is_Some (fs !! bp)).
  { destruct (decodes_inv _ _ _ Hb) as (raw & -> & _). eauto. }
  rewrite (compare_with_baseline_existing resample self fs candidate name t save_diff Hex).
  fold bp.
  rewrite (bind_Return _ _ _ _ _
             (compare_images_verdict self fs bp candidate b c t true Hb Hc)).
  destruct (verdict b c t) as [sim ratio]. simpl.
  destruct (negb sim && save_diff); [|reflexivity].
  erewrite bind_Return
    by (apply (create_diff_image_ok resample self fs bp candidate _ b c);
        auto using png_path_diff).
  reflexivity.
Qed.

(** X6: when Pillow can write a PNG file at the baseline path of [name],
    [save_baseline] returns that path,
    [str(Path(baseline_dir) / (name + ".png"))]; the file there then decodes
    to the picture of the screenshot, whatever was there before, and no
    other path has changed.  [update_baseline] does the same. *)
Theorem save_baseline_round_trip (self : ScreenshotCompare) (fs : filesystem)
    (screenshot_path name : string) (X : RGBImage) :
  decodes fs screenshot_path X ->
  writable_png self fs (joinpath (baseline_dir self) (name +:+ ".png")) ->
  exists fs' : filesystem,
    save_baseline self screenshot_path name fs
    = (Return (joinpath (baseline_dir self) (name +:+ ".png")), fs')
    /\ update_baseline self screenshot_path name fs
       = (Return (joinpath (baseline_dir self) (name +:+ ".png")), fs')
    /\ decodes fs' (joinpath (baseline_dir self) (name +:+ ".png")) X
    /\ fs' !! joinpath (baseline_dir self) (name +:+ ".png") = fs !! screenshot_path
    /\ (forall q, q <> joinpath (baseline_dir self) (name +:+ ".png") ->
                  fs' !! q = fs !! q).
Proof.
  intros HX (Hpng & _ & Hd). pose proof (decodes_small _ _ _ HX) as Hs.
  apply decodes_inv in HX as (raw & Hraw & -> & Hne).
  rewrite size_convert_RGB in Hs.
  exists (<[joinpath (baseline_dir self) (name +:+ ".png") := ImageFile raw]> fs).
  split; [apply save_baseline_ok; assumption|].
  split; [apply save_baseline_ok; assumption|].
  split; [apply decodes_intro; [apply lookup_insert_eq|exact Hne|exact Hs]|].
  split; [rewrite lookup_insert_eq; symmetry; exact Hraw|].
  intros q Hq. apply lookup_insert_ne. congruence.
Qed.

(** X7: when the screenshot cannot be opened, [save_baseline] and
    [update_baseline] raise the exception of [Image.open] and change
    nothing, so a previous baseline stays; and [compare_with_baseline] on a
    name without baseline raises it too and creates no baseline. *)
Theorem unreadable_screenshot_changes_nothing (self : ScreenshotCompare)
    (fs fs' : filesystem) (screenshot_path name : string) (e : exn)
    (threshold : Q) (save_diff : bool) :
  Image_open screenshot_path fs = (Raise e, fs') ->
  save_baseline self screenshot_path name fs = (Raise e, fs)
  /\ update_baseline self screenshot_path name fs = (Raise e, fs)
  /\ (fs !! joinpath (baseline_dir self) (name +:+ ".png") = None ->
      compare_with_baseline resample self screenshot_path name threshold save_diff fs
      = (Raise e, fs)).
Proof.
  intros H. pose proof (Image_open_state _ _ _ _ H) as ->.
  split; [apply save_baseline_raises; exact H|].
  split; [apply save_baseline_raises; exact H|].
  intros Hno. unfold compare_with_baseline, bind at 1, exists_. rewrite Hno.
  rewrite bool_decide_eq_false_2 by (intros [? ?]; discriminate). simpl.
  apply bind_Raise. apply save_baseline_raises. exact H.
Qed.

(** X8: after [update_baseline] with a screenshot, for a name at whose
    baseline path Pillow can write a PNG file, comparing that screenshot
    against the baseline of the same name, under any threshold that is not
    negative, returns [(True, 0.0, None)] and changes nothing more. *)
Theorem update_baseline_then_compare (self : ScreenshotCompare) (fs : filesystem)
    (screenshot_path name : string) (X : RGBImage) (threshold : Q)
    (save_diff : bool) :
  decodes fs screenshot_path X ->
  writable_png self fs (joinpath (baseline_dir self) (name +:+ ".png")) ->
  (0 <= threshold)%Q ->
  exists (fs' : filesystem) (path : string),
    update_baseline self screenshot_path name fs = (Return path, fs')
    /\ compare_with_baseline resample self screenshot_path name threshold save_diff fs'
       = (Return (true, 0%Q, None), fs').
Proof.
  intros HX (Hpng & _ & Hd) Ht. pose proof (decodes_small _ _ _ HX) as Hs.
  apply decodes_inv in HX as (raw & Hraw & -> & Hne).
  rewrite size_convert_RGB in Hs.
  set (bp := joinpath (baseline_dir self) (name +:+ ".png")) in *.
  exists (<[bp := ImageFile raw]> fs), bp.
  split; [apply save_baseline_ok; assumption|].
  rewrite compare_with_baseline_existing
    by (fold bp; rewrite lookup_insert_eq; eauto).
  fold bp.
  assert (Hcmp : compare_images self bp screenshot_path threshold true
                   (<[bp := ImageFile raw]> fs)
                 = (Return (true, 0%Q), <[bp := ImageFile raw]> fs)).
  { apply (compare_images_same_picture self _ bp screenshot_path (convert_RGB raw)).
    - apply decodes_intro; [apply lookup_insert_eq|exact Hne|exact Hs].
    - apply decodes_intro; [|exact Hne|exact Hs].
      destruct (decide (bp = screenshot_path)) as [<-|Hneq].
      + apply lookup_insert_eq.
      + rewrite lookup_insert_ne by exact Hneq. exact Hraw.
    - exact Ht. }
  rewrite (bind_Return _ _ _ _ _ Hcmp). reflexivity.
Qed.


(** X10: once a baseline exists, a candidate whose pixel dimensions differ
    from the baseline's fails under every threshold, also thresholds of 1
    and more, with the diff artifact written at
    [str(Path(diff_dir) / (name + "_diff.png"))], a path taken to be
    writable; a later call fails in the same way, and the baseline is never
    replaced. *)
Theorem size_change_fails_until_update (self : ScreenshotCompare)
    (fs : filesystem) (candidate name : string) (b c : RGBImage) (t1 t2 : Q) :
  decodes fs (joinpath (baseline_dir self) (name +:+ ".png")) b ->
  decodes fs candidate c ->
  size b <> size c ->
  fs !! joinpath (diff_dir self) (name +:+ "_diff.png") <> Some Directory ->
  parent_ready self fs (joinpath (diff_dir self) (name +:+ "_diff.png")) ->
  candidate <> joinpath (diff_dir self) (name +:+ "_diff.png") ->
  exists fs1 : filesystem,
    compare_with_baseline resample self candidate name t1 true fs
    = (Return (false, 1%Q, Some (joinpath (diff_dir self) (name +:+ "_diff.png"))),
       fs1)
    /\ compare_with_baseline resample self candidate name t2 true fs1
       = (Return (false, 1%Q, Some (joinpath (diff_dir self) (name +:+ "_diff.png"))),
          fs1)
    /\ fs1 !! joinpath (baseline_dir self) (name +:+ ".png")
       = fs !! joinpath (baseline_dir self) (name +:+ ".png").
Proof.
  intros Hb Hc Hsz Hout _ Hcand.
  assert (Hv : forall t, verdict b c t = (false, 1%Q)).
  { intros t. unfold verdict. rewrite bool_decide_eq_false_2 by exact Hsz.
    reflexivity. }
  eexists. split; [|split].
  - rewrite (compare_with_baseline_run self fs candidate name b c t1 true)
      by assumption.
    rewrite Hv. reflexivity.
  - rewrite (compare_with_baseline_run self _ candidate name b c t2 true).
    + rewrite Hv. simpl. rewrite insert_insert_eq. reflexivity.
    + apply decodes_insert_ne; [exact Hb|apply diff_path_not_baseline_path].
    + apply decodes_insert_ne; [exact Hc|congruence].
    + rewrite lookup_insert_eq. discriminate.
  - apply lookup_insert_ne. apply diff_path_not_baseline_path.
Qed.

(** ** Regions *)

Lemma compare_regions_run (self : ScreenshotCompare) (fs : filesystem)
    (p1 p2 : string) (i1 i2 : RGBImage) (x0 y0 x1 y1 : Z) (t : Q) :
  decodes fs p1 i1 -> decodes fs p2 i2 -> x0 < x1 -> y0 < y1 ->
  decompression_bomb (x1 - x0, y1 - y0) = false ->
  fs !! joinpath (diff_dir self) "temp_region1.png" <> Some Directory ->
  fs !! joinpath (diff_dir self) "temp_region2.png" <> Some Directory ->
  compare_regions self p1 p2 (x0, y0, x1, y1) t fs
  = (Return (verdict (crop_box i1 (x0, y0, x1, y1)) (crop_box i2 (x0, y0, x1, y1)) t),
     delete (joinpath (diff_dir self) "temp_region2.png")
       (delete (joinpath (diff_dir self) "temp_region1.png") fs)).
Proof.
  intros H1 H2 Hx Hy Hsmall Hd1 Hd2.
  pose proof (png_path_temp1 (diff_dir self)) as Hpng1.
  pose proof (png_path_temp2 (diff_dir self)) as Hpng2.
  set (temp1 := joinpath (diff_dir self) "temp_region1.png") in *.
  set (temp2 := joinpath (diff_dir self) "temp_region2.png") in *.
  set (region1 := crop_box i1 (x0, y0, x1, y1)).
  set (region2 := crop_box i2 (x0, y0, x1, y1)).
  assert (Hne : temp1 <> temp2) by apply temp_paths_distinct.
  set (s1 := <[temp1 := ImageFile (ModeRGB region1)]> fs).
  set (s2 := <[temp2 := ImageFile (ModeRGB region2)]> s1).
  assert (Hbox : nonempty (x1 - x0, y1 - y0) = true).
  { unfold nonempty. simpl. apply andb_true_iff. split; apply Z.ltb_lt; lia. }
  assert (D1 : decodes s2 temp1 region1).
  { apply (decodes_intro s2 temp1 (ModeRGB region1)); [|exact Hbox|exact Hsmall].
    unfold s2, s1. rewrite lookup_insert_ne by congruence. apply lookup_insert_eq. }
  assert (D2 : decodes s2 temp2 region2).
  { apply (decodes_intro s2 temp2 (ModeRGB region2)); [|exact Hbox|exact Hsmall].
    apply lookup_insert_eq. }
  assert (Hd2' : s1 !! temp2 <> Some Directory).
  { unfold s1. rewrite lookup_insert_ne by congruence. exact Hd2. }
  assert (U1 : unlink temp1 s2 = (Return tt, delete temp1 s2)).
  { apply (unlink_file temp1 s2 (ModeRGB region1)).
    unfold s2, s1. rewrite lookup_insert_ne by congruence. apply lookup_insert_eq. }
  assert (U2 : unlink temp2 (delete temp1 s2) = (Return tt, delete temp2 (delete temp1 s2))).
  { apply (unlink_file temp2 _ (ModeRGB region2)).
    rewrite lookup_delete_ne by congruence. apply lookup_insert_eq. }
  unfold compare_regions. fold temp1 temp2.
  rewrite (bind_Return _ _ _ _ _ H1), (bind_Return _ _ _ _ _ H2).
  rewrite (bind_Return _ _ _ _ _
             (crop_ok i1 x0 y0 x1 y1 fs ltac:(lia) ltac:(lia) Hsmall)).
  rewrite (bind_Return _ _ _ _ _
             (crop_ok i2 x0 y0 x1 y1 fs ltac:(lia) ltac:(lia) Hsmall)).
  fold region1 region2.
  rewrite (bind_Return _ _ _ _ _
             (Image_save_ok (ModeRGB region1) temp1 fs Hpng1 Hd1 Hbox)).
  fold s1.
  rewrite (bind_Return _ _ _ _ _
             (Image_save_ok (ModeRGB region2) temp2 s1 Hpng2 Hd2' Hbox)).
  fold s2.
  rewrite (bind_Return _ _ _ _ _
             (compare_images_verdict self s2 temp1 temp2 region1 region2 t true D1 D2)).
  rewrite (bind_Return _ _ _ _ _ U1), (bind_Return _ _ _ _ _ U2).
  unfold ret. f_equal. apply map_eq. intros q. unfold s2, s1.
  destruct (decide (q = temp2)) as [->|Hq2].
  { rewrite !lookup_delete_eq. reflexivity. }
  rewrite !(lookup_delete_ne _ temp2) by congruence.
  destruct (decide (q = temp1)) as [->|Hq1].
  { rewrite !lookup_delete_eq. reflexivity. }
  rewrite !lookup_delete_ne, !lookup_insert_ne by congruence. reflexivity.
Qed.

Lemma crop_box_whole (img : RGBImage) (w h : Z) :
  size img = (w, h) ->
  size (crop_box img (0, 0, w, h)) = (w, h)
  /\ same_pixels (crop_box img (0, 0, w, h)) img.
Proof.
  intros Hsz. unfold same_pixels. simpl. rewrite !Z.sub_0_r, Hsz. simpl.
  split; [reflexivity|]. intros x y Hx Hy.
  rewrite !Z.add_0_r, in_box_true by lia. reflexivity.
Qed.

Lemma total_gap_same_pixels (a a' b b' : RGBImage) :
  size a = size a' -> same_pixels a a' -> same_pixels b b' -> size b = size a ->
  total_gap a b = total_gap a' b'.
Proof.
  intros Hsz Ha Hb Hsb. unfold total_gap. rewrite <- Hsz.
  apply sigma_ext. intros y Hy. apply sigma_ext. intros x Hx.
  rewrite Ha by lia. rewrite Hb by (rewrite Hsb; lia). reflexivity.
Qed.

(** X11: on two pictures of the same size, [compare_regions] with the box
    that covers the whole picture returns what [compare_images] returns. *)
Theorem compare_regions_whole_picture (self : ScreenshotCompare)
    (fs : filesystem) (p1 p2 : string) (i1 i2 : RGBImage) (w h : Z) (t : Q)
    (aa : bool) :
  decodes fs p1 i1 -> decodes fs p2 i2 ->
  size i1 = (w, h) -> size i2 = (w, h) ->
  fs !! joinpath (diff_dir self) "temp_region1.png" <> Some Directory ->
  fs !! joinpath (diff_dir self) "temp_region2.png" <> Some Directory ->
  exists (v : bool * Q) (fs' : filesystem),
    compare_regions self p1 p2 (0, 0, w, h) t fs = (Return v, fs')
    /\ compare_images self p1 p2 t aa fs = (Return v, fs).
Proof.
  intros H1 H2 Hs1 Hs2 Hd1 Hd2.
  destruct (decodes_nonempty _ _ _ H1) as [Hw Hh]. rewrite Hs1 in Hw, Hh.
  simpl in Hw, Hh.
  assert (Hsmall : decompression_bomb (w - 0, h - 0) = false).
  { rewrite !Z.sub_0_r, <- Hs1. exact (decodes_small _ _ _ H1). }
  rewrite (compare_regions_run self fs p1 p2 i1 i2 0 0 w h t) by assumption.
  rewrite (compare_images_verdict self fs p1 p2 i1 i2 t aa H1 H2).
  eexists _, _. split; [reflexivity|]. f_equal. f_equal.
  destruct (crop_box_whole i1 w h Hs1) as [Hc1 Hp1].
  destruct (crop_box_whole i2 w h Hs2) as [Hc2 Hp2].
  unfold verdict. rewrite !bool_decide_eq_true_2 by congruence.
  assert (Hr : spec_difference_ratio (crop_box i1 (0, 0, w, h)) (crop_box i2 (0, 0, w, h))
               = spec_difference_ratio i1 i2).
  { unfold spec_difference_ratio.
    rewrite (total_gap_same_pixels _ i1 _ i2) by (assumption || congruence).
    rewrite Hc1, Hs1. reflexivity. }
  rewrite Hr. reflexivity.
Qed.

(** X12: [compare_regions] checks no bounds: a box that lies to the right of
    both pictures, and is not larger than Pillow lets a picture be, crops
    two black pictures, so the comparison returns [(True, 0.0)] under any
    threshold that is not negative, whatever the two pictures hold. *)
Theorem compare_regions_outside_pictures (self : ScreenshotCompare)
    (fs : filesystem) (p1 p2 : string) (i1 i2 : RGBImage) (x0 y0 x1 y1 : Z)
    (t : Q) :
  decodes fs p1 i1 -> decodes fs p2 i2 -> x0 < x1 -> y0 < y1 ->
  (x1 - x0) * (y1 - y0) <= 2 * MAX_IMAGE_PIXELS ->
  (size i1).1 <= x0 -> (size i2).1 <= x0 -> (0 <= t)%Q ->
  fs !! joinpath (diff_dir self) "temp_region1.png" <> Some Directory ->
  fs !! joinpath (diff_dir self) "temp_region2.png" <> Some Directory ->
  exists fs' : filesystem,
    compare_regions self p1 p2 (x0, y0, x1, y1) t fs = (Return (true, 0%Q), fs').
Proof.
  intros H1 H2 Hx Hy Harea Hr1 Hr2 Ht Hd1 Hd2.
  assert (Hsmall : decompression_bomb (x1 - x0, y1 - y0) = false)
    by (apply box_small; lia).
  rewrite (compare_regions_run self fs p1 p2 i1 i2 x0 y0 x1 y1 t) by assumption.
  eexists. f_equal. f_equal.
  unfold verdict. rewrite bool_decide_eq_true_2 by reflexivity.
  assert (Hz : spec_difference_ratio (crop_box i1 (x0, y0, x1, y1))
                                     (crop_box i2 (x0, y0, x1, y1)) = 0%Q).
  { unfold spec_difference_ratio.
    rewrite (proj2 (total_gap_zero_iff _ _)); [apply ratio_zero|].
    intros x y Hbx Hby. simpl in *.
    rewrite !in_box_false by lia. reflexivity. }
  rewrite Hz. apply Qle_bool_iff in Ht. rewrite Ht. reflexivity.
Qed.

End MoreProperties.

(** ** The perceptual hash *)

Lemma above_mean (pixel total : Z) :
  0 <= total < 2 ^ 53 ->
  negb (Qle_bool (inject_Z pixel) (round_double (inject_Z total / inject_Z 64)))
  = (total <? pixel * 64).
Proof.
  intros Ht. rewrite (mean_of_64_exact total Ht). apply eq_true_iff_eq.
  rewrite negb_true_iff, <- not_true_iff_false, Qle_bool_iff, Z.ltb_lt.
  rewrite Qred_correct, (ratio_as_fraction total 64) by lia.
  unfold Qle. simpl. lia.
Qed.

Lemma py_sum_bytes (l : list Z) :
  Forall (fun v => 0 <= v <= 255) l -> 0 <= py_sum l <= 255 * Z.of_nat (length l).
Proof.
  induction 1 as [|v l Hv _ IH]; [simpl; lia|].
  change (py_sum (v :: l)) with (v + py_sum l). simpl length. lia.
Qed.

Section HashProperties.

Variable thumbnail : thumbnail_filter.
Variable md5_hexdigest : string -> string.

Lemma length_thumbnail_data (img : Image) :
  length (thumbnail_data thumbnail img) = 64%nat.
Proof. reflexivity. Qed.

Lemma thumbnail_data_sum (img : Image) :
  0 <= py_sum (thumbnail_data thumbnail img) < 2 ^ 53.
Proof.
  assert (H : Forall (fun v => 0 <= v <= 255) (thumbnail_data thumbnail img)).
  { unfold thumbnail_data. apply Forall_concat, Forall_fmap, Forall_forall.
    intros y _. apply Forall_fmap, Forall_forall. intros x _. apply levels_byte. }
  apply py_sum_bytes in H. rewrite length_thumbnail_data in H.
  change (2 ^ 53) with 9007199254740992. lia.
Qed.

(** The hash of a file that opens, as a function of the thumbnail's cells:
    a cell gives bit 1 when 64 times its level exceeds the sum of all
    levels. *)
Lemma get_image_hash_pattern (self : ScreenshotCompare) (fs : filesystem)
    (path : string) (raw : Image) :
  Image_open path fs = (Return raw, fs) ->
  get_image_hash thumbnail md5_hexdigest self path fs
  = (match int_base2
             (join ((fun v => if py_sum (thumbnail_data thumbnail raw) <? v * 64
                              then "1" else "0")
                      <$> thumbnail_data thumbnail raw)) with
     | None => Raise ValueError
     | Some hash_int => Return (md5_hexdigest (py_str hash_int))
     end, fs).
Proof.
  intros Hopen. unfold get_image_hash. rewrite (bind_Return _ _ _ _ _ Hopen).
  rewrite length_thumbnail_data. unfold truediv.
  destruct (decide (Z.of_nat 64 = 0)) as [Hz|_]; [discriminate Hz|].
  unfold bind, ret.
  replace (bit_of (round_double (inject_Z (py_sum (thumbnail_data thumbnail raw))
                                 / inject_Z (Z.of_nat 64)))
             <$> thumbnail_data thumbnail raw)
    with ((fun v => if py_sum (thumbnail_data thumbnail raw) <? v * 64
                    then "1" else "0") <$> thumbnail_data thumbnail raw).
  - destruct (int_base2 _); reflexivity.
  - apply list_fmap_ext. intros _ v _. unfold bit_of.
    change (Z.of_nat 64) with 64.
    rewrite above_mean by apply thumbnail_data_sum. reflexivity.
Qed.

Lemma thumbnail_data_affine (raw1 raw2 : Image) (a b : Z) :
  (forall x y, 0 <= x < 8 -> 0 <= y < 8 ->
     thumbnail raw2 x y = a * thumbnail raw1 x y + b) ->
  thumbnail_data thumbnail raw2
  = (fun v => a * v + b) <$> thumbnail_data thumbnail raw1.
Proof.
  intros H. unfold thumbnail_data.
  change (seqZ 0 8) with [0; 1; 2; 3; 4; 5; 6; 7]. simpl.
  rewrite !H by lia. reflexivity.
Qed.

Lemma py_sum_affine (a b : Z) (l : list Z) :
  py_sum ((fun v => a * v + b) <$> l) = a * py_sum l + Z.of_nat (length l) * b.
Proof.
  induction l as [|v l IH]; [simpl; lia|].
  rewrite fmap_cons. simpl py_sum. simpl length. rewrite IH. lia.
Qed.

(** X14: the hash only sees which cells of the thumbnail exceed the mean:
    two files whose thumbnails differ by a change of contrast and
    brightness [v |-> a * v + b] with [a > 0] get the same hash. *)
Theorem get_image_hash_ignores_brightness_and_contrast
    (self : ScreenshotCompare) (fs : filesystem) (path1 path2 : string)
    (raw1 raw2 : Image) (a b : Z) :
  Image_open path1 fs = (Return raw1, fs) ->
  Image_open path2 fs = (Return raw2, fs) ->
  0 < a ->
  (forall x y, 0 <= x < 8 -> 0 <= y < 8 ->
     thumbnail raw2 x y = a * thumbnail raw1 x y + b) ->
  get_image_hash thumbnail md5_hexdigest self path2 fs
  = get_image_hash thumbnail md5_hexdigest self path1 fs.
Proof.
  intros H1 H2 Ha Haff.
  rewrite (get_image_hash_pattern self fs path1 raw1 H1).
  rewrite (get_image_hash_pattern self fs path2 raw2 H2).
  rewrite (thumbnail_data_affine raw1 raw2 a b Haff).
  rewrite py_sum_affine, length_thumbnail_data.
  rewrite <- list_fmap_compose.
  replace ((fun v => if a * py_sum (thumbnail_data thumbnail raw1)
                         + Z.of_nat 64 * b <? v * 64 then "1" else "0")
             ∘ (fun v => a * v + b) <$> thumbnail_data thumbnail raw1)
    with ((fun v => if py_sum (thumbnail_data thumbnail raw1) <? v * 64
                    then "1" else "0") <$> thumbnail_data thumbnail raw1);
    [reflexivity|].
  apply list_fmap_ext. intros _ v _. unfold compose.
  change (Z.of_nat 64) with 64.
  set (total := py_sum (thumbnail_data thumbnail raw1)).
  destruct (Z.ltb_spec total (v * 64)) as [Hlt|Hge];
    destruct (Z.ltb_spec (a * total + 64 * b) ((a * v + b) * 64)) as [Hlt'|Hge'];
    try reflexivity; exfalso.
  - assert (a * total < a * (v * 64)) by (apply Z.mul_lt_mono_pos_l; lia). lia.
  - assert (a * (v * 64) <= a * total) by (apply Z.mul_le_mono_nonneg_l; lia). lia.
Qed.

(** X15: a file whose thumbnail has the same level in every cell has no
    cell above the mean: its hash is the MD5 digest of ["0"]. *)
Theorem get_image_hash_flat_thumbnail (self : ScreenshotCompare)
    (fs : filesystem) (path : string) (raw : Image) (level : Z) :
  Image_open path fs = (Return raw, fs) ->
  (forall x y, 0 <= x < 8 -> 0 <= y < 8 -> thumbnail raw x y = level) ->
  get_image_hash thumbnail md5_hexdigest self path fs
  = (Return (md5_hexdigest "0"), fs).
Proof.
  intros Hopen Hflat.
  rewrite (get_image_hash_pattern self fs path raw Hopen).
  assert (Hdata : thumbnail_data thumbnail raw = replicate 64 level).
  { unfold thumbnail_data. change (seqZ 0 8) with [0; 1; 2; 3; 4; 5; 6; 7]. simpl.
    rewrite !Hflat by lia. reflexivity. }
  rewrite Hdata.
  assert (Hsum : py_sum (replicate 64 level) = level * 64) by (simpl; lia).
  rewrite Hsum, fmap_replicate, Z.ltb_irrefl. reflexivity.
Qed.

End HashProperties.

(** ** Clearing the baselines, then comparing *)

Lemma prefix_append (a b : string) : String.prefix a (a +:+ b) = true.
Proof.
  induction a as [|c a IH]; simpl; [destruct b; reflexivity|].
  destruct (Ascii.ascii_dec c c); [exact IH|congruence].
Qed.

Lemma substring_whole (b : string) : String.substring 0 (String.length b) b = b.
Proof. induction b as [|c b IH]; simpl; [reflexivity|]. f_equal. exact IH. Qed.

Lemma substring_append (a b : string) :
  String.substring (String.length a) (String.length b) (a +:+ b) = b.
Proof. induction a as [|c a IH]; simpl; [apply substring_whole|exact IH]. Qed.

Lemma index_slash_cons (c : Ascii.ascii) (s : string) :
  String.index 0 "/" (String c s)
  = if Ascii.ascii_dec "/" c then Some O
    else match String.index 0 "/" s with
         | Some n => Some (S n)
         | None => None
         end.
Proof.
  cbn [String.index String.prefix].
  destruct (Ascii.ascii_dec "/" c); [destruct s|]; reflexivity.
Qed.

Lemma no_slash_append_png (name : string) :
  String.index 0 "/" name = None -> String.index 0 "/" (name +:+ ".png") = None.
Proof.
  induction name as [|c name IH]; intros H; [reflexivity|].
  change (String c name +:+ ".png") with (String c (name +:+ ".png")).
  rewrite index_slash_cons in *.
  destruct (Ascii.ascii_dec "/" c); [discriminate H|].
  destruct (String.index 0 "/" name); [discriminate H|].
  rewrite IH by reflexivity. reflexivity.
Qed.

Lemma ends_with_append (name suffix : string) :
  ends_with suffix (name +:+ suffix) = true.
Proof.
  unfold ends_with. rewrite length_append.
  apply andb_true_iff. split; [apply Nat.leb_le; lia|].
  replace (String.length name + String.length suffix - String.length suffix)%nat
    with (String.length name) by lia.
  rewrite substring_append. apply String.eqb_refl.
Qed.

Lemma index_none_no_slash (s : string) :
  String.index 0 "/" s = None -> no_slash s = true.
Proof.
  induction s as [|c s IH]; [reflexivity|]. rewrite index_slash_cons.
  cbn [no_slash]. destruct (Ascii.ascii_dec "/" c) as [|Hc]; [discriminate|].
  destruct (String.index 0 "/" s); [discriminate|]. intros _.
  rewrite IH by reflexivity. rewrite andb_true_r.
  apply negb_true_iff, Ascii.eqb_neq. congruence.
Qed.

(** The baseline file of a name without slash is an entry that
    [baseline_dir.glob("*.png")] matches. *)
Lemma baseline_path_matches (dir name : string) :
  String.index 0 "/" name = None ->
  matches_png dir (joinpath dir (name +:+ ".png")) = true.
Proof.
  intros Hname. rewrite joinpath_entry.
  2: { rewrite no_slash_append, (index_none_no_slash name Hname). reflexivity. }
  2: { apply plain_part_long. rewrite length_append. simpl. lia. }
  unfold matches_png. cbv zeta.
  set (d := child_prefix dir). set (base := name +:+ ".png").
  rewrite prefix_append, (length_append d base).
  replace (String.length d + String.length base - String.length d)%nat
    with (String.length base) by lia.
  rewrite substring_append. unfold base.
  rewrite (no_slash_append_png name Hname), ends_with_append.
  rewrite bool_decide_eq_true_2 by reflexivity. reflexivity.
Qed.

Section ClearThenCompare.

Variable resample : RGBImage -> Z * Z -> Z -> Z -> rgb.

Lemma compare_with_baseline_first_run (self : ScreenshotCompare)
    (fs : filesystem) (candidate name : string) (raw : Image) (t : Q)
    (save_diff : bool) :
  fs !! joinpath (baseline_dir self) (name +:+ ".png") = None ->
  png_path (joinpath (baseline_dir self) (name +:+ ".png")) ->
  fs !! candidate = Some (ImageFile raw) ->
  nonempty (Image_size raw) = true ->
  decompression_bomb (Image_size raw) = false ->
  compare_with_baseline resample self candidate name t save_diff fs
  = (Return (true, 0%Q, None),
     <[joinpath (baseline_dir self) (name +:+ ".png") := ImageFile raw]> fs).
Proof.
  intros Hno Hpng Hraw Hne Hs. unfold compare_with_baseline, bind at 1, exists_.
  rewrite Hno, bool_decide_eq_false_2 by (intros [? ?]; discriminate). simpl.
  rewrite (bind_Return _ _ _ _ _
             (save_baseline_ok self fs candidate name raw Hraw Hne Hs Hpng
                ltac:(rewrite Hno; discriminate))).
  reflexivity.
Qed.

(** X16: when [clear_baselines] meets no directory among the [.png] entries
    it returns, and the next [compare_with_baseline] of any name without a
    slash whose baseline path has the extension of a PNG file (the name is
    not empty and not made of dots) is a first run again: it returns
    [(True, 0.0, None)] whatever the threshold and stores the candidate as
    the new baseline. *)
Theorem clear_baselines_then_first_run (self : ScreenshotCompare)
    (fs : filesystem) (listing : list string) (candidate name : string)
    (X : RGBImage) (threshold : Q) (save_diff : bool) :
  glob_png (baseline_dir self) fs listing ->
  (forall p, p ∈ listing -> fs !! p <> Some Directory) ->
  String.index 0 "/" name = None ->
  png_path (joinpath (baseline_dir self) (name +:+ ".png")) ->
  decodes fs candidate X ->
  matches_png (baseline_dir self) candidate = false ->
  exists fs1 fs2 : filesystem,
    clear_baselines self listing fs = (Return tt, fs1)
    /\ compare_with_baseline resample self candidate name threshold save_diff fs1
       = (Return (true, 0%Q, None), fs2)
    /\ fs2 !! joinpath (baseline_dir self) (name +:+ ".png") = fs !! candidate.
Proof.
  intros Hglob Hfiles Hname Hpng HX Hcand.
  pose proof (decodes_small _ _ _ HX) as Hs.
  apply decodes_inv in HX as (raw & Hraw & -> & Hne).
  rewrite size_convert_RGB in Hs.
  destruct (proj1 (for_each_unlink_glob (baseline_dir self) fs listing Hglob) Hfiles)
    as (fs1 & Hrun & Hgone & Hkept).
  exists fs1, (<[joinpath (baseline_dir self) (name +:+ ".png") := ImageFile raw]> fs1).
  split; [exact Hrun|]. split.
  - apply compare_with_baseline_first_run.
    + apply Hgone, baseline_path_matches, Hname.
    + exact Hpng.
    + rewrite (Hkept _ Hcand). exact Hraw.
    + exact Hne.
    + exact Hs.
  - rewrite lookup_insert_eq. symmetry. exact Hraw.
Qed.

End ClearThenCompare.

(** ** The further properties at sample inputs *)

Lemma red_blue_eight_bit : eight_bit red_blue.
Proof.
  intros x y _ _. unfold red_blue. simpl. destruct (x =? 0); simpl; lia.
Qed.

Lemma blue_red_eight_bit : eight_bit blue_red.
Proof.
  intros x y _ _. unfold blue_red. simpl. destruct (x =? 0); simpl; lia.
Qed.

Lemma stocked_listing :
  glob_png (baseline_dir sc) stocked ["visual/baselines/home.png"].
Proof.
  split; [apply NoDup_singleton|]. intros p. split.
  - intros Hp. apply list_elem_of_singleton in Hp as ->.
    split; [eexists|]; reflexivity.
  - intros [Hsome Hm]. unfold stocked in Hsome.
    apply lookup_insert_is_Some in Hsome as [<-|[_ [n Hn]]]; [left|].
    apply lookup_singleton_Some in Hn as [<- _]. discriminate Hm.
Qed.

Lemma compare_images_threshold_monotone_witness :
  (exists is_similar' : bool,
     compare_images sc "shot.png" "other.png" (9 # 10) false shots
     = (Return (is_similar', 6004799503160661 # 9007199254740992), shots))
  /\ ((7 # 10 <= 9 # 10)%Q -> true = true ->
      compare_images sc "shot.png" "other.png" (9 # 10) false shots
      = (Return (true, 6004799503160661 # 9007199254740992), shots)).
Proof.
  apply (compare_images_threshold_monotone sc shots shots "shot.png" "other.png"
           (7 # 10) (9 # 10) true false true
           (6004799503160661 # 9007199254740992)).
  reflexivity.
Defined.

Lemma compare_images_raises_iff_witness :
  compare_images sc "shot.png" "missing.png" (1 # 10) true shots
  = (Raise FileNotFoundError, shots).
Proof.
  apply (proj2 (compare_images_raises_iff sc shots shots "shot.png" "missing.png"
                  (1 # 10) true FileNotFoundError)).
  split; [reflexivity|]. right. split; [exists red_blue|]; reflexivity.
Defined.

Lemma compare_images_symmetric_witness :
  compare_images sc "shot.png" "other.png" (1 # 10) true shots
  = compare_images sc "other.png" "shot.png" (1 # 10) false shots.
Proof.
  apply (compare_images_symmetric sc shots "shot.png" "other.png" red_blue blue_red).
  - reflexivity.
  - reflexivity.
Defined.

Lemma compare_images_ratio_bounds_witness :
  exists (is_similar : bool) (ratio : Q),
    compare_images sc "shot.png" "other.png" (1 # 10) true shots
    = (Return (is_similar, ratio), shots)
    /\ (0 <= ratio)%Q /\ (ratio <= 1)%Q.
Proof.
  apply (compare_images_ratio_bounds sc shots "shot.png" "other.png" red_blue blue_red).
  - reflexivity.
  - reflexivity.
  - exact red_blue_eight_bit.
  - exact blue_red_eight_bit.
Defined.

Lemma compare_images_zero_iff_identical_witness :
  exists (is_similar : bool) (ratio : Q),
    compare_images sc "shot.png" "other.png" 0 true shots
    = (Return (is_similar, ratio), shots)
    /\ (ratio = 0%Q <-> same_pixels red_blue blue_red)
    /\ (is_similar = true <-> same_pixels red_blue blue_red).
Proof.
  apply (compare_images_zero_iff_identical sc shots "shot.png" "other.png"
           red_blue blue_red true).
  - reflexivity.
  - reflexivity.
  - reflexivity.
Defined.

Lemma save_baseline_round_trip_witness :
  exists fs' : filesystem,
    save_baseline sc "other.png" "home" baselined
    = (Return (joinpath (baseline_dir sc) ("home" +:+ ".png")), fs')
    /\ update_baseline sc "other.png" "home" baselined
       = (Return (joinpath (baseline_dir sc) ("home" +:+ ".png")), fs')
    /\ decodes fs' (joinpath (baseline_dir sc) ("home" +:+ ".png")) blue_red
    /\ fs' !! joinpath (baseline_dir sc) ("home" +:+ ".png") = baselined !! "other.png"
    /\ (forall q, q <> joinpath (baseline_dir sc) ("home" +:+ ".png") ->
                  fs' !! q = baselined !! q).
Proof.
  apply (save_baseline_round_trip sc baselined "other.png" "home" blue_red).
  - reflexivity.
  - split; [reflexivity|]. split; [right; left; reflexivity|discriminate].
Defined.

Lemma unreadable_screenshot_changes_nothing_witness :
  save_baseline sc "missing.png" "home" baselined = (Raise FileNotFoundError, baselined)
  /\ update_baseline sc "missing.png" "home" baselined
     = (Raise FileNotFoundError, baselined)
  /\ (baselined !! joinpath (baseline_dir sc) ("cart" +:+ ".png") = None ->
      compare_with_baseline nearest sc "missing.png" "cart" (1 # 20) true baselined
      = (Raise FileNotFoundError, baselined)).
Proof.
  destruct (unreadable_screenshot_changes_nothing nearest sc baselined baselined
              "missing.png" "home" FileNotFoundError (1 # 20) true eq_refl)
    as (Hsave & Hupdate & _).
  destruct (unreadable_screenshot_changes_nothing nearest sc baselined baselined
              "missing.png" "cart" FileNotFoundError (1 # 20) true eq_refl)
    as (_ & _ & Hfirst).
  split; [exact Hsave|]. split; [exact Hupdate|exact Hfirst].
Defined.

Lemma update_baseline_then_compare_witness :
  exists (fs' : filesystem) (path : string),
    update_baseline sc "other.png" "home" baselined = (Return path, fs')
    /\ compare_with_baseline nearest sc "other.png" "home" 0 true fs'
       = (Return (true, 0%Q, None), fs').
Proof.
  apply (update_baseline_then_compare nearest sc baselined "other.png" "home"
           blue_red 0 true).
  - reflexivity.
  - split; [reflexivity|]. split; [right; left; reflexivity|discriminate].
  - discriminate.
Defined.


Lemma size_change_fails_until_update_witness :
  exists fs1 : filesystem,
    compare_with_baseline nearest sc "white.png" "home" 1 true baselined
    = (Return (false, 1%Q, Some (joinpath (diff_dir sc) ("home" +:+ "_diff.png"))),
       fs1)
    /\ compare_with_baseline nearest sc "white.png" "home" 2 true fs1
       = (Return (false, 1%Q, Some (joinpath (diff_dir sc) ("home" +:+ "_diff.png"))),
          fs1)
    /\ fs1 !! joinpath (baseline_dir sc) ("home" +:+ ".png")
       = baselined !! joinpath (baseline_dir sc) ("home" +:+ ".png").
Proof.
  apply (size_change_fails_until_update nearest sc baselined "white.png" "home"
           red_blue (solid (100, 100) white) 1 2).
  - reflexivity.
  - reflexivity.
  - discriminate.
  - discriminate.
  - right. right. left. reflexivity.
  - discriminate.
Defined.

Lemma compare_regions_whole_picture_witness :
  exists (v : bool * Q) (fs' : filesystem),
    compare_regions sc "shot.png" "other.png" (0, 0, 2, 1) (1 # 10) shots
    = (Return v, fs')
    /\ compare_images sc "shot.png" "other.png" (1 # 10) true shots = (Return v, shots).
Proof.
  apply (compare_regions_whole_picture sc shots "shot.png" "other.png"
           red_blue blue_red 2 1 (1 # 10) true).
  - reflexivity.
  - reflexivity.
  - reflexivity.
  - reflexivity.
  - discriminate.
  - discriminate.
Defined.

Lemma compare_regions_outside_pictures_witness :
  exists fs' : filesystem,
    compare_regions sc "shot.png" "other.png" (5, 0, 6, 1) 0 shots
    = (Return (true, 0%Q), fs').
Proof.
  apply (compare_regions_outside_pictures sc shots "shot.png" "other.png"
           red_blue blue_red 5 0 6 1 0).
  - reflexivity.
  - reflexivity.
  - lia.
  - lia.
  - discriminate.
  - simpl. lia.
  - simpl. lia.
  - discriminate.
  - discriminate.
  - discriminate.
Defined.

Lemma get_image_hash_ignores_brightness_and_contrast_witness :
  get_image_hash probe tag sc "bright.png" greys
  = get_image_hash probe tag sc "grey.png" greys.
Proof.
  apply (get_image_hash_ignores_brightness_and_contrast probe tag sc greys
           "grey.png" "bright.png" grey_board grey_board_bright 3 7).
  - reflexivity.
  - reflexivity.
  - lia.
  - intros x y Hx Hy. unfold grey_board, grey_board_bright.
    cbn [probe levels]. unfold probe_level, clip8.
    destruct (Z.leb_spec (3 * (x + 10 * y) + 7) 0); [lia|].
    destruct (Z.ltb_spec (3 * (x + 10 * y) + 7) 256); [|lia].
    destruct (Z.leb_spec (x + 10 * y) 0); [lia|].
    destruct (Z.ltb_spec (x + 10 * y) 256); lia.
Defined.

Lemma get_image_hash_flat_thumbnail_witness :
  get_image_hash probe tag sc "flat.png" greys = (Return (tag "0"), greys).
Proof.
  apply (get_image_hash_flat_thumbnail probe tag sc greys "flat.png"
           (ModeL (4, 4) (fun _ _ => 90)) 90).
  - reflexivity.
  - intros x y _ _. reflexivity.
Defined.

Lemma clear_baselines_then_first_run_witness :
  exists fs1 fs2 : filesystem,
    clear_baselines sc ["visual/baselines/home.png"] stocked = (Return tt, fs1)
    /\ compare_with_baseline nearest sc "shot.png" "home" (1 # 20) true fs1
       = (Return (true, 0%Q, None), fs2)
    /\ fs2 !! joinpath (baseline_dir sc) ("home" +:+ ".png") = stocked !! "shot.png".
Proof.
  apply (clear_baselines_then_first_run nearest sc stocked
           ["visual/baselines/home.png"] "shot.png" "home" blue_red (1 # 20) true).
  - exact stocked_listing.
  - intros p Hp. apply list_elem_of_singleton in Hp as ->. discriminate.
  - reflexivity.
  - reflexivity.
  - reflexivity.
  - reflexivity.
Defined.

(** X17: when one of the two input files cannot be opened,
    [compare_regions] raises the exception of the first that fails, before
    any temporary file is written: the file system is left as it was. *)
Theorem compare_regions_unreadable_input (self : ScreenshotCompare)
    (fs : filesystem) (p1 p2 : string) (box : region) (t : Q) (e : exn) :
  open_RGB p1 fs = (Raise e, fs)
  \/ ((exists i1, decodes fs p1 i1) /\ open_RGB p2 fs = (Raise e, fs)) ->
  compare_regions self p1 p2 box t fs = (Raise e, fs).
Proof.
  intros [H|[[i1 H1] H2]]; unfold compare_regions.
  - apply bind_Raise. exact H.
  - rewrite (bind_Return _ _ _ _ _ H1). apply bind_Raise. exact H2.
Qed.

Lemma compare_regions_unreadable_input_witness :
  compare_regions sc "shot.png" "missing.png" (0, 0, 1, 1) (1 # 10) shots
  = (Raise FileNotFoundError, shots).
Proof.
  apply (compare_regions_unreadable_input sc shots "shot.png" "missing.png"
           (0, 0, 1, 1) (1 # 10) FileNotFoundError).
  right. split; [exists red_blue|]; reflexivity.
Defined.
